(** * Noughts and crosses: the board state and the alpha-beta agent

    A shallow embedding of [noughts_and_crosses.py]: the class
    [NoughtsAndCrosses] (board, [valid_move], [move], [winner], [actions],
    [__str__]), the classes [ABMinimaxAgent] ([next_move], [get_value]) and
    [HumanAgent] ([next_move]), and the functions [run_game],
    [yes_no_input] and [play].

    Of what is printed, the text [__str__] builds and the last line of
    [run_game] are kept; the rest reads no state and changes none. *)

From Stdlib Require Import ZArith Bool Lia Sorted.
From stdpp Require Import base option list gmap.

Local Open Scope Z_scope.

(** ** Exceptions and results *)

(** The exceptions the modelled code can raise.  [ValueError] is raised by
    [move] itself and by [int]; [IndexError] by numpy indexing, by indexing a
    list and by [random.choice]; [OverflowError] by numpy on an index from
    2^63 to 2^64 - 1; [EOFError] and [KeyboardInterrupt] by [input]. *)
Inductive exn : Type :=
| ValueError
| IndexError
| OverflowError
| EOFError
| KeyboardInterrupt.

Inductive result (A : Type) : Type :=
| Ok (a : A)
| Raise (e : exn).
Arguments Ok {A} a.
Arguments Raise {A} e.

Definition rbind {A B : Type} (m : result A) (k : A → result B) : result B :=
  match m with
  | Ok a => k a
  | Raise e => Raise e
  end.

Notation "'try' x <- m ; k" := (rbind m (fun x => k))
  (at level 10, x name, m at level 100, k at level 200).

(** ** Values of positions: Python numbers with [math.inf] *)

Inductive ext : Type := NInf | Fin (z : Z) | PInf.

Definition ext_leb (a b : ext) : bool :=
  match a, b with
  | NInf, _ => true
  | _, PInf => true
  | Fin x, Fin y => x <=? y
  | _, _ => false
  end.

Definition ext_ltb (a b : ext) : bool := negb (ext_leb b a).

Definition ext_eqb (a b : ext) : bool :=
  match a, b with
  | NInf, NInf => true
  | PInf, PInf => true
  | Fin x, Fin y => x =? y
  | _, _ => false
  end.

(** Python's [max(a, b)] returns [a] unless [b] is strictly larger, and
    [min(a, b)] returns [a] unless [b] is strictly smaller. *)
Definition ext_max (a b : ext) : ext := if ext_ltb a b then b else a.
Definition ext_min (a b : ext) : ext := if ext_ltb b a then b else a.

Definition ext_le (a b : ext) : Prop := ext_leb a b = true.
Definition ext_lt (a b : ext) : Prop := ext_ltb a b = true.

(** ** Symbols, cells and the 3x3 array *)

(** [NOUGHT] is ['O'] and [CROSS] is ['X']; [EMPTY] is [' '].  The attribute
    [next_player] only ever holds [CROSS] or [NOUGHT]: [__init__] sets it to
    [CROSS] and [move] rewrites it through [flip_player], whose values are
    those two. *)
Inductive player : Type := NOUGHT | CROSS.

Inductive cell : Type := EMPTY | Mark (p : player).

Definition player_eqb (p q : player) : bool :=
  match p, q with
  | NOUGHT, NOUGHT | CROSS, CROSS => true
  | _, _ => false
  end.

Definition cell_eqb (a b : cell) : bool :=
  match a, b with
  | EMPTY, EMPTY => true
  | Mark p, Mark q => player_eqb p q
  | _, _ => false
  end.

(** [self.flip_player = {CROSS: NOUGHT, NOUGHT: CROSS}] *)
Definition flip_player (p : player) : player :=
  match p with
  | CROSS => NOUGHT
  | NOUGHT => CROSS
  end.

(** A valid position along one axis of the array. *)
Inductive idx : Type := I0 | I1 | I2.

Definition Z_of_idx (i : idx) : Z :=
  match i with I0 => 0 | I1 => 1 | I2 => 2 end.

(** [range(3)] *)
Definition range3 : list idx := [I0; I1; I2].

(** One axis of length three. *)
Record vec3 (A : Type) : Type := V3 { v0 : A; v1 : A; v2 : A }.
Arguments V3 {A} v0 v1 v2.
Arguments v0 {A} v.
Arguments v1 {A} v.
Arguments v2 {A} v.

Definition vget {A : Type} (v : vec3 A) (i : idx) : A :=
  match i with I0 => v0 v | I1 => v1 v | I2 => v2 v end.

Definition vset {A : Type} (v : vec3 A) (i : idx) (a : A) : vec3 A :=
  match i with
  | I0 => V3 a (v1 v) (v2 v)
  | I1 => V3 (v0 v) a (v2 v)
  | I2 => V3 (v0 v) (v1 v) a
  end.

Definition vmap {A B : Type} (f : A → B) (v : vec3 A) : vec3 B :=
  V3 (f (v0 v)) (f (v1 v)) (f (v2 v)).

Definition vlist {A : Type} (v : vec3 A) : list A := [v0 v; v1 v; v2 v].

(** The array built by [np.array([[EMPTY for _ in range(3)] for _ in range(3)])]:
    three rows of three cells; its shape never changes. *)
Definition grid : Type := vec3 (vec3 cell).

Definition get2 {A : Type} (g : vec3 (vec3 A)) (r c : idx) : A := vget (vget g r) c.

Definition set2 {A : Type} (g : vec3 (vec3 A)) (r c : idx) (a : A) : vec3 (vec3 A) :=
  vset g r (vset (vget g r) c a).

(** [g[i, :]] and [g[:, i]] *)
Definition row_slice {A : Type} (g : vec3 (vec3 A)) (i : idx) : vec3 A := vget g i.
Definition col_slice {A : Type} (g : vec3 (vec3 A)) (i : idx) : vec3 A :=
  vmap (fun r => vget r i) g.

(** The cells in memory order (row after row). *)
Definition cells (g : grid) : list cell := vlist (v0 g) ++ vlist (v1 g) ++ vlist (v2 g).

(** How numpy reads a Python integer given as an index, before it looks at
    the array.  One that fits the index type (64 bits, signed) is taken as it
    is.  One from 2^63 to 2^64 - 1 is read as an unsigned 64-bit scalar, and
    turning that into the index type raises [OverflowError].  Any other is
    read as an object, which numpy refuses as an index: [IndexError].  The
    numbers below are -2^63, 2^63 and 2^64. *)
Definition as_intp (i : Z) : result Z :=
  if (-9223372036854775808 <=? i) && (i <? 9223372036854775808) then Ok i
  else if (9223372036854775808 <=? i) && (i <? 18446744073709551616)
  then Raise OverflowError
  else Raise IndexError.
Arguments as_intp : simpl never.

(** The bounds rule for an index that fits, on an axis of length three:
    [0..2] as they are, [-3..-1] counted from the end, anything else raises
    [IndexError]. *)
Definition adjust_index (i : Z) : result idx :=
  if (0 <=? i) && (i <? 3) then
    Ok (if i =? 0 then I0 else if i =? 1 then I1 else I2)
  else if (-3 <=? i) && (i <? 0) then
    Ok (if i =? -3 then I0 else if i =? -2 then I1 else I2)
  else Raise IndexError.

(** The pair of indices of [g[row, col]]: numpy reads both, the row first,
    and only then checks both against their axes. *)
Definition np_index (row col : Z) : result (idx * idx) :=
  try row <- as_intp row;
  try col <- as_intp col;
  try r <- adjust_index row;
  try c <- adjust_index col;
  Ok (r, c).

(** [g[row, col]] *)
Definition getitem (g : grid) (row col : Z) : result cell :=
  try rc <- np_index row col;
  Ok (get2 g rc.1 rc.2).

(** [g[row, col] = x] *)
Definition setitem (g : grid) (row col : Z) (x : cell) : result grid :=
  try rc <- np_index row col;
  Ok (set2 g rc.1 rc.2 x).

(** [np.all] over one axis and over the whole array. *)
Definition np_all (v : vec3 bool) : bool := v0 v && v1 v && v2 v.
Definition np_all2 (m : vec3 (vec3 bool)) : bool := np_all (vmap np_all m).

(** Elementwise comparison of an array with a scalar. *)
Definition eq_scalar (v : vec3 cell) (x : cell) : vec3 bool :=
  vmap (fun y => cell_eqb y x) v.
Definition eq_scalar2 (g : grid) (x : cell) : vec3 (vec3 bool) :=
  vmap (fun r => eq_scalar r x) g.
Definition ne_scalar2 (g : grid) (x : cell) : vec3 (vec3 bool) :=
  vmap (vmap (fun y => negb (cell_eqb y x))) g.

(** [np.nonzero] of a 2-d mask: the row indices and the column indices of the
    true entries, in memory (row-major) order. *)
Definition np_nonzero (m : vec3 (vec3 bool)) : list Z * list Z :=
  let hits :=
    flat_map (fun i =>
      flat_map (fun j => if get2 m i j then [(i, j)] else []) range3) range3 in
  (map (fun h => Z_of_idx (fst h)) hits, map (fun h => Z_of_idx (snd h)) hits).

(** ** The class NoughtsAndCrosses *)

Record State : Type := mkState { board : grid; next_player : player }.

Definition empty_grid : grid :=
  let r := V3 EMPTY EMPTY EMPTY in V3 r r r.

(** [__init__] *)
Definition init : State := {| board := empty_grid; next_player := CROSS |}.

Definition valid_move (self : State) (row col : Z) : result bool :=
  try x <- getitem (board self) row col;
  Ok (cell_eqb x EMPTY).

(** [move], on values: the copy made by [copy.deepcopy] is a new value and the
    two assignments are made on it.  The version on a store of objects, which
    shows that the receiver is not touched, is [Obj.move] below. *)
Definition move (self : State) (row col : Z) : result State :=
  try ok <- valid_move self row col;
  if negb ok then Raise ValueError
  else
    let state := self in
    try b <- setitem (board state) row col (Mark (next_player state));
    let state := {| board := b; next_player := next_player state |} in
    Ok {| board := board state; next_player := flip_player (next_player state) |}.

(** What [winner] returns: a cell of the board, the string ['draw'], or
    [False]. *)
Inductive verdict : Type := Sym (c : cell) | DRAW | FALSE.

Definition verdict_eqb (a b : verdict) : bool :=
  match a, b with
  | Sym x, Sym y => cell_eqb x y
  | DRAW, DRAW => true
  | FALSE, FALSE => true
  | _, _ => false
  end.

(** The [for i in range(3)] loop of [winner]: row [i], then column [i]. *)
Fixpoint winner_loop (b : grid) (todo : list idx) : option cell :=
  match todo with
  | [] => None
  | i :: todo =>
    if np_all (eq_scalar (row_slice b i) (get2 b i I0)) && negb (cell_eqb (get2 b i I0) EMPTY)
    then Some (get2 b i I0)
    else if np_all (eq_scalar (col_slice b i) (get2 b I0 i)) && negb (cell_eqb (get2 b I0 i) EMPTY)
    then Some (get2 b I0 i)
    else winner_loop b todo
  end.

Definition winner (self : State) : verdict :=
  let b := board self in
  match winner_loop b range3 with
  | Some c => Sym c
  | None =>
    if negb (cell_eqb EMPTY (get2 b I0 I0)) && cell_eqb (get2 b I0 I0) (get2 b I1 I1)
       && cell_eqb (get2 b I1 I1) (get2 b I2 I2)
    then Sym (get2 b I1 I1)
    else if negb (cell_eqb EMPTY (get2 b I2 I0)) && cell_eqb (get2 b I2 I0) (get2 b I1 I1)
       && cell_eqb (get2 b I1 I1) (get2 b I0 I2)
    then Sym (get2 b I1 I1)
    else if np_all2 (ne_scalar2 b EMPTY) then DRAW
    else FALSE
  end.

Definition actions (self : State) : list (Z * Z) :=
  let '(row, col) := np_nonzero (eq_scalar2 (board self) EMPTY) in
  zip row col.

(** ** Objects in a store: what [copy.deepcopy] shares and what it does not

    A [NoughtsAndCrosses] instance is an object holding a reference to a numpy
    array.  [move] copies both, writes to the copies and returns the new
    instance.  The constants ([EMPTY], [flip_player], ...) are copied too and
    never written, so they are not stored. *)
Module Obj.

Definition loc : Type := nat.

Inductive hval : Type :=
| Array (g : grid)
| Instance (board_ref : loc) (player_attr : player).

Abbreviation heap := (gmap loc hval).

Definition load_array (h : heap) (l : loc) : option grid :=
  match h !! l with
  | Some (Array g) => Some g
  | _ => None
  end.

Definition load_instance (h : heap) (l : loc) : option (loc * player) :=
  match h !! l with
  | Some (Instance b p) => Some (b, p)
  | _ => None
  end.

(** The value an instance stands for. *)
Definition load (h : heap) (self : loc) : option State :=
  '(b, p) ← load_instance h self;
  g ← load_array h b;
  Some {| board := g; next_player := p |}.

Definition alloc (h : heap) (v : hval) : loc * heap :=
  let l := fresh (dom h) in (l, <[l := v]> h).

(** [copy.deepcopy(self)]: a new array with the same cells, and a new instance
    that refers to it. *)
Definition deepcopy (h : heap) (self : loc) : option (loc * heap) :=
  '(b, p) ← load_instance h self;
  g ← load_array h b;
  let '(b', h) := alloc h (Array g) in
  let '(self', h) := alloc h (Instance b' p) in
  Some (self', h).

(** [None] is a store in which [self] is not an instance with a board; a
    Python program cannot build one. *)
Definition valid_move (h : heap) (self : loc) (row col : Z) : option (result bool) :=
  '(b, _) ← load_instance h self;
  g ← load_array h b;
  Some (try x <- getitem g row col; Ok (cell_eqb x EMPTY)).

Definition move (h : heap) (self : loc) (row col : Z) : option (result loc * heap) :=
  ok ← valid_move h self row col;
  match ok with
  | Raise e => Some (Raise e, h)
  | Ok false => Some (Raise ValueError, h)
  | Ok true =>
    '(state, h) ← deepcopy h self;
    (* state.board[row, col] = state.next_player *)
    '(b, p) ← load_instance h state;
    g ← load_array h b;
    match setitem g row col (Mark p) with
    | Raise e => Some (Raise e, h)
    | Ok g' =>
      let h := <[b := Array g']> h in
      (* state.next_player = state.flip_player[state.next_player] *)
      '(b, p) ← load_instance h state;
      let h := <[state := Instance b (flip_player p)]> h in
      Some (Ok state, h)
    end
  end.

End Obj.

(** ** The class ABMinimaxAgent *)

(** A computation that recurses: [None] when the recursion budget is used up,
    else what the Python call returns or raises. *)
Definition fueled (A : Type) : Type := option (result A).

Section GetValueLoop.

(** The recursive call [self.get_value(new_state, player, get_min=not get_min,
    alpha=alpha, beta=beta)] as a function of the three arguments that vary. *)
Variable rec_call : State → ext → ext → fueled ext.
Variable state : State.
Variable get_min : bool.

(** The [for action in state.actions()] loop of [get_value]; [alpha], [beta]
    and [best_value] are the local variables the loop updates. *)
Fixpoint get_value_loop (todo : list (Z * Z)) (alpha beta best_value : ext)
  : fueled ext :=
  match todo with
  | [] => Some (Ok best_value)
  | action :: todo =>
    match move state action.1 action.2 with
    | Raise e => Some (Raise e)
    | Ok new_state =>
      match rec_call new_state alpha beta with
      | None => None
      | Some (Raise e) => Some (Raise e)
      | Some (Ok action_value) =>
        if negb get_min then
          let alpha := ext_max alpha action_value in
          if ext_leb beta action_value then Some (Ok action_value)
          else
            get_value_loop todo alpha beta
              (if negb get_min && ext_ltb best_value action_value
                  || get_min && ext_ltb action_value best_value
               then action_value else best_value)
        else
          let beta := ext_min beta action_value in
          if ext_leb action_value alpha then Some (Ok action_value)
          else
            get_value_loop todo alpha beta
              (if negb get_min && ext_ltb best_value action_value
                  || get_min && ext_ltb action_value best_value
               then action_value else best_value)
      end
    end
  end.

End GetValueLoop.

Fixpoint get_value_fuel (fuel : nat) (state : State) (player : player)
    (get_min : bool) (alpha beta : ext) : fueled ext :=
  match fuel with
  | O => None
  | S fuel =>
    let other_player := flip_player player in
    let winner := winner state in
    if verdict_eqb winner (Sym (Mark player)) then Some (Ok (Fin 1))
    else if verdict_eqb winner (Sym (Mark other_player)) then Some (Ok (Fin (-1)))
    else if verdict_eqb winner DRAW then Some (Ok (Fin 0))
    else
      let best_value := PInf in
      let best_value := if negb get_min then NInf else best_value in
      get_value_loop
        (fun new_state alpha beta =>
           get_value_fuel fuel new_state player (negb get_min) alpha beta)
        state get_min (actions state) alpha beta best_value
  end.

(** A game has nine cells, so the recursion is at most nine calls deep below
    the first one. *)
Definition depth_bound : nat := 10.

Definition get_value (state : State) (player : player) (get_min : bool)
    (alpha beta : ext) : fueled ext :=
  get_value_fuel depth_bound state player get_min alpha beta.

(** The loop of [next_move], with [value_of] the call
    [self.get_value(new_state, player, get_min=True)].  It returns the list
    [best_action] handed to [random.choice]. *)
Fixpoint next_move_loop (value_of : State → fueled ext) (state : State)
    (todo : list (Z * Z)) (best_action : list (Z * Z)) (best_value : ext)
  : fueled (list (Z * Z)) :=
  match todo with
  | [] => Some (Ok best_action)
  | action :: todo =>
    match move state action.1 action.2 with
    | Raise e => Some (Raise e)
    | Ok new_state =>
      match value_of new_state with
      | None => None
      | Some (Raise e) => Some (Raise e)
      | Some (Ok action_value) =>
        let '(best_action, best_value) :=
          if ext_ltb best_value action_value
          then ([action], action_value)
          else (best_action, best_value) in
        let best_action :=
          if ext_eqb action_value best_value
          then best_action ++ [action]
          else best_action in
        next_move_loop value_of state todo best_action best_value
      end
    end
  end.

(** [next_move] up to its last line: the list [best_action] when the loop has
    ended. *)
Definition best_actions (state : State) : fueled (list (Z * Z)) :=
  let player := next_player state in
  next_move_loop (fun new_state => get_value new_state player true NInf PInf)
    state (actions state) [] NInf.

(** [random.choice(seq)]: [IndexError] on an empty sequence, else the element
    at a uniformly drawn position; [draw] is the number drawn, reduced to the
    length of the sequence. *)
Definition random_choice {A : Type} (seq : list A) (draw : nat) : result A :=
  match seq !! (draw `mod` length seq)%nat with
  | Some x => Ok x
  | None => Raise IndexError
  end.

Definition next_move (state : State) (draw : nat) : fueled (Z * Z) :=
  match best_actions state with
  | None => None
  | Some (Raise e) => Some (Raise e)
  | Some (Ok best_action) => Some (random_choice best_action draw)
  end.

(** ** The game the agent searches, stated without the search *)

(** The positions one legal move away, in the order of [actions]. *)
Definition successors_of (s : State) (moves : list (Z * Z)) : list State :=
  omap (fun a => match move s a.1 a.2 with Ok s' => Some s' | Raise _ => None end) moves.

Definition successors (s : State) : list State := successors_of s (actions s).

(** The value of a finished game for player [p]; [None] while in progress. *)
Definition terminal_value (p : player) (s : State) : option ext :=
  match winner s with
  | Sym (Mark q) => Some (if player_eqb q p then Fin 1 else Fin (-1))
  | DRAW => Some (Fin 0)
  | Sym EMPTY | FALSE => None
  end.

(** The largest and the smallest value of a list. *)
Definition ext_max_list (l : list ext) : ext := foldr ext_max NInf l.
Definition ext_min_list (l : list ext) : ext := foldr ext_min PInf l.

(** Exhaustive minimax, layers alternating by depth: [get_min] says whether
    this layer takes the minimum. *)
Fixpoint minimax_depth (n : nat) (p : player) (get_min : bool) (s : State) : ext :=
  match terminal_value p s with
  | Some v => v
  | None =>
    match n with
    | O => if get_min then PInf else NInf
    | S n =>
      let vs := map (minimax_depth n p (negb get_min)) (successors s) in
      if get_min then ext_min_list vs else ext_max_list vs
    end
  end.

Definition minimax (p : player) (get_min : bool) (s : State) : ext :=
  minimax_depth 9 p get_min s.

(** The game-theoretic value for [p]: the player to move picks the successor
    that is best for them, [p] the largest value and the opponent the
    smallest. *)
Fixpoint game_value_depth (n : nat) (p : player) (s : State) : ext :=
  match terminal_value p s with
  | Some v => v
  | None =>
    match n with
    | O => if player_eqb (next_player s) p then NInf else PInf
    | S n =>
      let vs := map (game_value_depth n p) (successors s) in
      if player_eqb (next_player s) p then ext_max_list vs else ext_min_list vs
    end
  end.

Definition game_value (p : player) (s : State) : ext := game_value_depth 9 p s.

(** [next_move] with the exhaustive search in place of [get_value]. *)
Definition best_actions_exhaustive (state : State) : fueled (list (Z * Z)) :=
  let player := next_player state in
  next_move_loop (fun new_state => Some (Ok (minimax player true new_state)))
    state (actions state) [] NInf.

(** The boards of a game: the initial one and those [move] returns. *)
Inductive reachable : State → Prop :=
| reach_init : reachable init
| reach_move s row col s' :
    reachable s → move s row col = Ok s' → reachable s'.

(** How many cells hold [x]. *)
Fixpoint count (x : cell) (l : list cell) : Z :=
  match l with
  | [] => 0
  | y :: l => (if cell_eqb y x then 1 else 0) + count x l
  end.

Definition count_cell (x : cell) (g : grid) : Z := count x (cells g).

Definition count_nonempty (g : grid) : Z :=
  count_cell (Mark CROSS) g + count_cell (Mark NOUGHT) g.

(** The nine positions in row-major order. *)
Definition positions : list (idx * idx) :=
  [(I0, I0); (I0, I1); (I0, I2); (I1, I0); (I1, I1); (I1, I2); (I2, I0); (I2, I1); (I2, I2)].

(** A position as the pair of integers [actions] returns. *)
Definition Z_of_pos (p : idx * idx) : Z * Z := (Z_of_idx p.1, Z_of_idx p.2).

(** Row-major order on moves. *)
Definition move_lt (a b : Z * Z) : Prop := a.1 < b.1 ∨ (a.1 = b.1 ∧ a.2 < b.2).

(** The eight lines of the board. *)
Definition lines : list (list (idx * idx)) :=
  [ [(I0, I0); (I0, I1); (I0, I2)]; [(I1, I0); (I1, I1); (I1, I2)];
    [(I2, I0); (I2, I1); (I2, I2)];
    [(I0, I0); (I1, I0); (I2, I0)]; [(I0, I1); (I1, I1); (I2, I1)];
    [(I0, I2); (I1, I2); (I2, I2)];
    [(I0, I0); (I1, I1); (I2, I2)]; [(I2, I0); (I1, I1); (I0, I2)] ].

(** Some line holds three times the symbol of [p]. *)
Definition has_line (p : player) (g : grid) : Prop :=
  ∃ l, l ∈ lines ∧ ∀ q, q ∈ l → get2 g q.1 q.2 = Mark p.

(** No cell is empty. *)
Definition full (g : grid) : Prop := ∀ i j, get2 g i j ≠ EMPTY.

(** ** Text *)

(** A Python string as the list of its code points. *)
Definition str : Type := list N.

Definition SP : N := 32.
Definition NL : N := 10.
Definition COMMA : N := 44.
(** The box-drawing characters of the rendering: U+2500, U+2502, U+253C. *)
Definition BOX_H : N := 9472.
Definition BOX_V : N := 9474.
Definition BOX_X : N := 9532.

(** The one-character strings the array holds: [' '], ['O'], ['X']. *)
Definition chr_of_cell (c : cell) : N :=
  match c with
  | EMPTY => 32
  | Mark NOUGHT => 79
  | Mark CROSS => 88
  end.

(** [f"{i}"] for [i] in [range(3)]. *)
Definition digit (i : idx) : N :=
  match i with I0 => 48 | I1 => 49 | I2 => 50 end.

(** The [for i in range(3)] loop of [__str__]. *)
Fixpoint str_loop (b : grid) (todo : list idx) (grid : str) : str :=
  match todo with
  | [] => grid
  | i :: todo =>
    let line :=
      [digit i; SP; chr_of_cell (get2 b i I0); SP; BOX_V; SP;
       chr_of_cell (get2 b i I1); SP; BOX_V; SP; chr_of_cell (get2 b i I2); NL] in
    let grid := grid ++ line in
    let grid :=
      if Z_of_idx i <? 2
      then grid ++ [SP] ++ repeat BOX_H 3 ++ [BOX_X] ++ repeat BOX_H 3 ++ [BOX_X]
                ++ repeat BOX_H 3 ++ [NL]
      else grid in
    str_loop b todo grid
  end.

Definition __str__ (self : State) : str :=
  let grid := [SP; SP; digit I0; SP; SP; SP; digit I1; SP; SP; SP; digit I2; NL] in
  str_loop (board self) range3 grid.

(** [s.split(sep)] for a separator of one character. *)
Fixpoint split (sep : N) (s : str) : list str :=
  match s with
  | [] => [[]]
  | c :: s =>
    if (c =? sep)%N then [] :: split sep s
    else
      match split sep s with
      | part :: parts => (c :: part) :: parts
      | [] => [[c]]
      end
  end.

(** ** Input, randomness and the agents *)

(** What a call of [input] meets: a line that was typed, or Ctrl-C. *)
Inductive event : Type :=
| Line (text : str)
| CtrlC.

(** What the program reads: the events its calls of [input] will meet, in
    order, after which the input has ended; and the numbers [random.choice]
    will draw, with how many of them are used. *)
Record world : Type := mkWorld { stdin : list event; rng : nat → nat; drawn : nat }.

(** The method [next_move] of an [Agent]: given the state it answers with a
    move or raises; [None] when it does neither. *)
Definition Agent : Type := State → world → fueled (Z * Z) * world.

(** [ABMinimaxAgent.next_move]: [next_move] above, drawing from the world. *)
Definition ABMinimaxAgent : Agent := fun state w =>
  match best_actions state with
  | None => (None, w)
  | Some (Raise e) => (Some (Raise e), w)
  | Some (Ok []) => (Some (Raise IndexError), w)
  | Some (Ok best_action) =>
    (Some (random_choice best_action (rng w (drawn w))),
     {| stdin := stdin w; rng := rng w; drawn := S (drawn w) |})
  end.

Section Builtins.

(** [str.strip] and [int] of Python; [int] answers [None] where Python raises
    [ValueError]. *)
Variable strip : str → str.
Variable int : str → option Z.

(** The [while True] loop of [HumanAgent.next_move] over the events still to
    come.  [input] raises [EOFError] when the input has ended and
    [KeyboardInterrupt] on Ctrl-C.  [ValueError] is caught and the loop goes
    on; any other exception leaves the loop. *)
Fixpoint HumanAgent_loop (state : State) (events : list event)
  : result (Z * Z) * list event :=
  match events with
  | [] => (Raise EOFError, [])
  | CtrlC :: events => (Raise KeyboardInterrupt, events)
  | Line line :: events =>
    let move := strip line in
    let move := split COMMA move in
    match move !! 0%nat with
    | None => (Raise IndexError, events)
    | Some m0 =>
      match int m0 with
      | None => HumanAgent_loop state events
      | Some row =>
        match move !! 1%nat with
        | None => (Raise IndexError, events)
        | Some m1 =>
          match int m1 with
          | None => HumanAgent_loop state events
          | Some col =>
            match valid_move state row col with
            | Raise ValueError => HumanAgent_loop state events
            | Raise e => (Raise e, events)
            | Ok false => HumanAgent_loop state events
            | Ok true => (Ok (row, col), events)
            end
          end
        end
      end
    end
  end.

Definition HumanAgent : Agent := fun state w =>
  let '(answer, events) := HumanAgent_loop state (stdin w) in
  (Some answer, {| stdin := events; rng := rng w; drawn := drawn w |}).

(** [yes_no_input]: the first line that is ['y'] or ['n'] once stripped;
    [input] raises as in [HumanAgent_loop], and nothing is caught. *)
Fixpoint yes_no_input (events : list event) : result bool * list event :=
  match events with
  | [] => (Raise EOFError, [])
  | CtrlC :: events => (Raise KeyboardInterrupt, events)
  | Line line :: events =>
    let response := strip line in
    if bool_decide (response ∈ [[121%N]; [110%N]])
    then (Ok (bool_decide (response = [121%N])), events)
    else yes_no_input events
  end.

End Builtins.

(** ** The driver *)

(** The line [run_game] prints last; [NoMessage] when the [while] test ends
    the loop. *)
Inductive ending : Type := PlayerOneWins | PlayerTwoWins | ItsADraw | NoMessage.

(** Truth value of what [winner] returns: [False] is false, a string true. *)
Definition truthy (v : verdict) : bool :=
  match v with
  | FALSE => false
  | _ => true
  end.

(** The [while not state.winner()] loop of [run_game]; it returns the ending
    and the last state. *)
Fixpoint run_game_loop (fuel : nat) (player1 player2 : Agent) (state : State)
    (w : world) : fueled (ending * State) * world :=
  match fuel with
  | 0%nat => (None, w)
  | S fuel =>
    if truthy (winner state) then (Some (Ok (NoMessage, state)), w)
    else
      let '(answer, w) := player1 state w in
      match answer with
      | None => (None, w)
      | Some (Raise e) => (Some (Raise e), w)
      | Some (Ok move1) =>
        match move state move1.1 move1.2 with
        | Raise e => (Some (Raise e), w)
        | Ok state =>
          if verdict_eqb (winner state) (Sym (Mark CROSS))
          then (Some (Ok (PlayerOneWins, state)), w)
          else if verdict_eqb (winner state) DRAW
          then (Some (Ok (ItsADraw, state)), w)
          else
            let '(answer, w) := player2 state w in
            match answer with
            | None => (None, w)
            | Some (Raise e) => (Some (Raise e), w)
            | Some (Ok move2) =>
              match move state move2.1 move2.2 with
              | Raise e => (Some (Raise e), w)
              | Ok state =>
                if verdict_eqb (winner state) (Sym (Mark NOUGHT))
                then (Some (Ok (PlayerTwoWins, state)), w)
                else if verdict_eqb (winner state) DRAW
                then (Some (Ok (ItsADraw, state)), w)
                else run_game_loop fuel player1 player2 state w
              end
            end
        end
      end
  end.

(** Nine cells: the loop body runs at most five times. *)
Definition run_game (player1 player2 : Agent) (w : world)
  : fueled (ending * State) * world :=
  run_game_loop 5 player1 player2 init w.

(** ** The session *)

Section Session.

Variable strip : str → str.
Variable int : str → option Z.



End Session.

(** ** Notions used in the statements and proofs *)

(** A value as a pair compared lexicographically, so that [lia] decides
    statements about the order. *)
Definition tag (a : ext) : Z := match a with NInf => -1 | Fin _ => 0 | PInf => 1 end.

(** The second component: the number itself, and 0 for the infinities. *)
Definition val (a : ext) : Z := match a with Fin z => z | _ => 0 end.

(** What a search with window [(alpha, beta)] may return in place of the true
    value [t]: [t] itself when it lies inside the window, and a value on the
    same side of the window otherwise. *)
Definition ab_ok (alpha beta t v : ext) : Prop :=
  (ext_lt alpha t → ext_lt t beta → v = t)
  ∧ (ext_le t alpha → ext_le v alpha)
  ∧ (ext_le beta t → ext_le beta v).

(** [has_line] and [full] as tests that compute. *)
Definition has_lineb (p : player) (g : grid) : bool :=
  existsb (forallb (fun q => cell_eqb (get2 g q.1 q.2) (Mark p))) lines.

Definition fullb (g : grid) : bool :=
  forallb (fun q => negb (cell_eqb (get2 g q.1 q.2) EMPTY)) positions.

(** A test holds on every cell, and on every grid: 3^9 grids, each checked
    by computation. *)
Definition all_cells (f : cell → bool) : bool :=
  f EMPTY && f (Mark NOUGHT) && f (Mark CROSS).

Definition all_grids (f : grid → bool) : bool :=
  all_cells (fun a => all_cells (fun b => all_cells (fun c =>
  all_cells (fun d => all_cells (fun e => all_cells (fun f' =>
  all_cells (fun g => all_cells (fun h => all_cells (fun i =>
    f (V3 (V3 a b c) (V3 d e f') (V3 g h i))))))))))).

(** [winner] reads the board only. *)
Definition winner_of (g : grid) : verdict := winner {| board := g; next_player := CROSS |}.

(** What [winner] returns on [g] agrees with the lines and the empty cells
    of [g]. *)
Definition winner_check (g : grid) : bool :=
  match winner_of g with
  | Sym (Mark p) => has_lineb p g
  | Sym EMPTY => false
  | DRAW => fullb g && negb (has_lineb CROSS g) && negb (has_lineb NOUGHT g)
  | FALSE => negb (fullb g) && negb (has_lineb CROSS g) && negb (has_lineb NOUGHT g)
  end
  && (if has_lineb CROSS g && negb (has_lineb NOUGHT g)
      then verdict_eqb (winner_of g) (Sym (Mark CROSS)) else true)
  && (if has_lineb NOUGHT g && negb (has_lineb CROSS g)
      then verdict_eqb (winner_of g) (Sym (Mark NOUGHT)) else true).

(** The position a legal move leads to. *)
Definition child (s : State) (a : Z * Z) : State :=
  match move s a.1 a.2 with
  | Ok s' => s'
  | Raise _ => s
  end.

(** What the loop lemmas ask of the recursive call: on the position after
    each move still to be tried it returns a value that is sound, for the
    window it was given, with respect to [T]. *)
Definition rec_ok (rec_call : State → ext → ext → fueled ext) (state : State)
    (T : State → ext) (acts : list (Z * Z)) : Prop :=
  ∀ a, In a acts →
    In a (actions state)
    ∧ ∀ alpha beta, ext_lt alpha beta →
        ∃ v, rec_call (child state a) alpha beta = Some (Ok v)
             ∧ ab_ok alpha beta (T (child state a)) v.

(** The values a game can have. *)
Definition finite_value (v : ext) : Prop := v = Fin (-1) ∨ v = Fin 0 ∨ v = Fin 1.

(** The loop of [next_move] over moves whose values are given by [V]. *)
Fixpoint pick (V : Z * Z → ext) (todo best_action : list (Z * Z)) (best_value : ext)
  : list (Z * Z) :=
  match todo with
  | [] => best_action
  | action :: todo =>
    let action_value := V action in
    let '(best_action, best_value) :=
      if ext_ltb best_value action_value
      then ([action], action_value)
      else (best_action, best_value) in
    let best_action :=
      if ext_eqb action_value best_value
      then best_action ++ [action]
      else best_action in
    pick V todo best_action best_value
  end.

(** The moves of [l] whose value is [m]. *)
Definition with_value (V : Z * Z → ext) (m : ext) (l : list (Z * Z)) : list (Z * Z) :=
  List.filter (fun a => ext_eqb (V a) m) l.

(** The best moves of [l], in the order of [l]. *)
Definition argmax (V : Z * Z → ext) (l : list (Z * Z)) : list (Z * Z) :=
  with_value V (ext_max_list (map V l)) l.

(** A list with its first element repeated. *)
Definition head_twice {A : Type} (l : list A) : list A :=
  match l with
  | [] => []
  | x :: _ => x :: l
  end.

(** The value the root loop gives to a move. *)
Definition root_value (s : State) (a : Z * Z) : ext :=
  game_value (next_player s) (child s a).

(** How many more crosses than noughts the board holds. *)
Definition cross_lead (s : State) : Z :=
  count_cell (Mark CROSS) (board s) - count_cell (Mark NOUGHT) (board s).

(** Crosses and noughts alternate, crosses first. *)
Definition turn_invariant (s : State) : Prop :=
  (cross_lead s = 0 ∧ next_player s = CROSS)
  ∨ (cross_lead s = 1 ∧ next_player s = NOUGHT).

(** Short names to write boards with. *)
Definition X : cell := Mark CROSS.

Definition O : cell := Mark NOUGHT.

(** Crosses have won, noughts are to move and four cells are empty. *)
Definition won_board : State :=
  {| board := V3 (V3 X X X) (V3 O O EMPTY) (V3 EMPTY EMPTY EMPTY);
     next_player := NOUGHT |}.


(** A full board with three crosses in row 0. *)
Definition full_cross_row : State :=
  {| board := V3 (V3 X X X) (V3 O O X) (V3 O X O); next_player := NOUGHT |}.


(** Noughts must block at (0, 2). *)
Definition must_block : State :=
  {| board := V3 (V3 X X EMPTY) (V3 EMPTY O EMPTY) (V3 EMPTY EMPTY EMPTY);
     next_player := NOUGHT |}.

(** A store holding [must_block]: instance 0 refers to array 1. *)
Definition block_heap : Obj.heap :=
  <[0%nat := Obj.Instance 1%nat NOUGHT]> (<[1%nat := Obj.Array (board must_block)]> ∅).

(** What an agent is trusted with at the boards where [pre] holds and the
    game is on: the move it answers leads to a board where [post] holds, and
    what it raises, or what [move] raises on its answer, is in [E]. *)
Definition agent_spec (p : Agent) (pre post : State → Prop) (E : exn → Prop) : Prop :=
  ∀ s w, pre s → winner s = FALSE →
    match (p s w).1 with
    | Some (Ok mv) =>
      match move s mv.1 mv.2 with
      | Ok s' => post s'
      | Raise x => E x
      end
    | Some (Raise x) => E x
    | None => True
    end.

(** What [run_game] announces against the last board, with [P] a property of
    the boards where crosses are to move and [P1] of those where noughts
    are. *)
Definition announced (P P1 : State → Prop) (e : ending) (s : State) : Prop :=
  match e with
  | PlayerOneWins => P1 s ∧ winner s = Sym (Mark CROSS)
  | PlayerTwoWins => P s ∧ winner s = Sym (Mark NOUGHT)
  | ItsADraw => (P s ∨ P1 s) ∧ winner s = DRAW
  | NoMessage => False
  end.

(** An agent that answers or raises whenever it is asked. *)
Definition answers (p : Agent) : Prop := ∀ s w, ∃ r, (p s w).1 = Some r.

(** The game is not lost for [p]: with best play [p] draws at least. *)
Definition not_losing (p : player) (s : State) : Prop :=
  ext_le (Fin 0) (game_value p s).




(** White space of [str.strip] below 128: 9 to 13 and 28 to 32. *)
Definition is_space (c : N) : bool :=
  ((9 <=? c) && (c <=? 13) || (28 <=? c) && (c <=? 32))%N.

(** White space [int] skips in ASCII text: 9 to 13 and 32, not 28 to 31. *)
Definition is_int_space (c : N) : bool :=
  ((9 <=? c) && (c <=? 13) || (c =? 32))%N.

Fixpoint lstrip (space : N → bool) (s : str) : str :=
  match s with
  | [] => []
  | c :: s' => if space c then lstrip space s' else s
  end.

Definition strip_with (space : N → bool) (s : str) : str :=
  reverse (lstrip space (reverse (lstrip space s))).

(** [str.strip] on ASCII text. *)
Definition ascii_strip (s : str) : str := strip_with is_space s.

Definition digit_value (c : N) : option Z :=
  if ((48 <=? c) && (c <=? 57))%N then Some (Z.of_N c - 48) else None.

(** The digits after the first one, with single underscores between digits. *)
Fixpoint int_digits (acc : Z) (s : str) : option Z :=
  match s with
  | [] => Some acc
  | c :: s' =>
    if (c =? 95)%N
    then
      match s' with
      | [] => None
      | d :: s'' =>
        match digit_value d with
        | Some v => int_digits (10 * acc + v) s''
        | None => None
        end
      end
    else
      match digit_value c with
      | Some v => int_digits (10 * acc + v) s'
      | None => None
      end
  end.

(** [int] on ASCII text in base ten: white space around, a sign, digits;
    [None] where Python raises [ValueError]. *)
Definition ascii_int (s : str) : option Z :=
  match strip_with is_int_space s with
  | [] => None
  | c :: s' =>
    let '(sign, ds) :=
      if (c =? 45)%N then (-1, s') else if (c =? 43)%N then (1, s') else (1, c :: s') in
    match ds with
    | [] => None
    | d :: ds' =>
      match digit_value d with
      | Some v => option_map (Z.mul sign) (int_digits v ds')
      | None => None
      end
    end
  end.

(** A world in which the lines [typed] are typed and the input ends. *)
Definition typing (typed : list str) : world :=
  {| stdin := map Line typed; rng := fun n => n; drawn := 0 |}.

(** ["0,0"], ["1,0"], ["0,1"], ["1,1"], [" 0 , 2 "]. *)
Definition cross_wins_script : list str :=
  [ [48; 44; 48]; [49; 44; 48]; [48; 44; 49]; [49; 44; 49]; [32; 48; 32; 44; 32; 50; 32] ]%N.

(** ["9223372036854775808,0"]: 2^63 for the row. *)
Definition overflow_line : str :=
  [57; 50; 50; 51; 51; 55; 50; 48; 51; 54; 56; 53; 52; 55; 55; 53; 56; 48; 56; 44; 48]%N.

(** The exception [g[row, col]] raises when the indices are not both in
    [-3, 2]: that of the first index numpy cannot read, else [IndexError]
    from the bounds. *)
Definition index_exn (row col : Z) : exn :=
  match as_intp row with
  | Raise e => e
  | Ok _ =>
    match as_intp col with
    | Raise e => e
    | Ok _ => IndexError
    end
  end.

(** * Properties *)

(** ** The order on values *)

Lemma ext_le_tv a b :
  ext_le a b ↔ (tag a < tag b ∨ (tag a = tag b ∧ val a <= val b)).
Proof.
  unfold ext_le; destruct a, b; simpl; rewrite ?Z.leb_le; try lia;
    split; try lia; discriminate.
Qed.

Lemma ext_lt_tv a b :
  ext_lt a b ↔ (tag a < tag b ∨ (tag a = tag b ∧ val a < val b)).
Proof.
  unfold ext_lt, ext_ltb; destruct a, b; simpl;
    rewrite ?negb_true_iff, ?Z.leb_gt; try lia; split; try lia; discriminate.
Qed.

Lemma ext_eq_tv (a b : ext) : a = b ↔ (tag a = tag b ∧ val a = val b).
Proof.
  split; [intros ->; lia|].
  destruct a, b; simpl; try lia; try reflexivity. intros [_ ->]; reflexivity.
Qed.

Lemma ext_leb_false a b : ext_leb a b = false ↔ ext_lt b a.
Proof. unfold ext_lt, ext_ltb. rewrite negb_true_iff. reflexivity. Qed.

Lemma ext_ltb_false a b : ext_ltb a b = false ↔ ext_le b a.
Proof. unfold ext_le, ext_ltb. rewrite negb_false_iff. reflexivity. Qed.

Lemma ext_eqb_eq a b : ext_eqb a b = true ↔ a = b.
Proof.
  destruct a, b; simpl; rewrite ?Z.eqb_eq; split; try congruence; try discriminate.
Qed.

Lemma ext_max_cases a b :
  (ext_lt a b ∧ ext_max a b = b) ∨ (ext_le b a ∧ ext_max a b = a).
Proof.
  unfold ext_max. destruct (ext_ltb a b) eqn:E.
  - left. split; [exact E | reflexivity].
  - right. split; [apply ext_ltb_false, E | reflexivity].
Qed.

Lemma ext_min_cases a b :
  (ext_lt b a ∧ ext_min a b = b) ∨ (ext_le a b ∧ ext_min a b = a).
Proof.
  unfold ext_min. destruct (ext_ltb b a) eqn:E.
  - left. split; [exact E | reflexivity].
  - right. split; [apply ext_ltb_false, E | reflexivity].
Qed.

Ltac ext_split_ops :=
  repeat match goal with
  | |- context [ext_max ?a ?b] =>
      destruct (ext_max_cases a b) as [[? ->] | [? ->]]
  | |- context [ext_min ?a ?b] =>
      destruct (ext_min_cases a b) as [[? ->] | [? ->]]
  | H : context [ext_max ?a ?b] |- _ =>
      let E := fresh in
      destruct (ext_max_cases a b) as [[? E] | [? E]]; rewrite E in *; clear E
  | H : context [ext_min ?a ?b] |- _ =>
      let E := fresh in
      destruct (ext_min_cases a b) as [[? E] | [? E]]; rewrite E in *; clear E
  end.

Ltac ext_prep :=
  intros;
  repeat match goal with
  | H : ext_leb ?a ?b = true |- _ => change (ext_le a b) in H
  | H : ext_ltb ?a ?b = true |- _ => change (ext_lt a b) in H
  | H : ext_leb ?a ?b = false |- _ => apply ext_leb_false in H
  | H : ext_ltb ?a ?b = false |- _ => apply ext_ltb_false in H
  | |- ext_leb ?a ?b = true => change (ext_le a b)
  | |- ext_ltb ?a ?b = true => change (ext_lt a b)
  | |- ext_leb ?a ?b = false => apply ext_leb_false
  | |- ext_ltb ?a ?b = false => apply ext_ltb_false
  end;
  ext_split_ops;
  rewrite ?ext_le_tv, ?ext_lt_tv, ?ext_eq_tv in *.

Ltac ext_lia :=
  ext_prep;
  repeat match goal with x : ext |- _ => destruct x end;
  simpl tag in *; simpl val in *; lia.

(** One step of the maximising loop: a child whose value reaches [beta] ends
    the loop, any other child tightens [alpha]. *)
Lemma max_cut a b t1 v1 M :
  ab_ok a b t1 v1 → ext_lt a b → ext_leb b v1 = true →
  ab_ok a b (ext_max t1 M) v1.
Proof. unfold ab_ok. ext_lia. Qed.

Lemma max_cut_best a b best v1 :
  ext_lt a b → ext_le best a → ext_leb b v1 = true → ext_le best v1.
Proof. ext_lia. Qed.

Lemma max_step_inv a b best t1 v1 :
  ab_ok a b t1 v1 → ext_lt a b → ext_le best a → ext_leb b v1 = false →
  ext_lt (ext_max a v1) b ∧ ext_le (ext_max best v1) (ext_max a v1).
Proof. unfold ab_ok. ext_lia. Qed.

Lemma max_step_post a b t1 v1 v M :
  ab_ok a b t1 v1 → ext_lt a b → ext_leb b v1 = false →
  ab_ok (ext_max a v1) b M v → ext_le v1 v →
  ab_ok a b (ext_max t1 M) v.
Proof. unfold ab_ok. ext_lia. Qed.

Lemma max_best_le best v1 v :
  ext_le (ext_max best v1) v → ext_le best v ∧ ext_le v1 v.
Proof. ext_lia. Qed.

(** The same for the minimising loop, with [beta] in the place of [alpha]. *)
Lemma min_cut a b t1 v1 M :
  ab_ok a b t1 v1 → ext_lt a b → ext_leb v1 a = true →
  ab_ok a b (ext_min t1 M) v1.
Proof. unfold ab_ok. ext_lia. Qed.

Lemma min_cut_best a b best v1 :
  ext_lt a b → ext_le b best → ext_leb v1 a = true → ext_le v1 best.
Proof. ext_lia. Qed.

Lemma min_step_inv a b best t1 v1 :
  ab_ok a b t1 v1 → ext_lt a b → ext_le b best → ext_leb v1 a = false →
  ext_lt a (ext_min b v1) ∧ ext_le (ext_min b v1) (ext_min best v1).
Proof. unfold ab_ok. ext_lia. Qed.

Lemma min_step_post a b t1 v1 v M :
  ab_ok a b t1 v1 → ext_lt a b → ext_leb v1 a = false →
  ab_ok a (ext_min b v1) M v → ext_le v v1 →
  ab_ok a b (ext_min t1 M) v.
Proof. unfold ab_ok. ext_lia. Qed.

Lemma min_best_le best v1 v :
  ext_le v (ext_min best v1) → ext_le v best ∧ ext_le v v1.
Proof. ext_lia. Qed.

(** ** The board *)

Lemma cell_eqb_eq a b : cell_eqb a b = true ↔ a = b.
Proof. destruct a as [|[]], b as [|[]]; simpl; split; congruence. Qed.

Lemma adjust_index_idx i : adjust_index (Z_of_idx i) = Ok i.
Proof. destruct i; reflexivity. Qed.

Lemma adjust_index_range i r : adjust_index i = Ok r → -3 <= i < 3.
Proof.
  unfold adjust_index.
  destruct (Z.leb_spec 0 i), (Z.ltb_spec i 3), (Z.leb_spec (-3) i), (Z.ltb_spec i 0);
    simpl; intros ?; try discriminate; lia.
Qed.

Lemma adjust_index_Raise i e : adjust_index i = Raise e → e = IndexError.
Proof.
  unfold adjust_index.
  destruct ((0 <=? i) && (i <? 3)); [discriminate|].
  destruct ((-3 <=? i) && (i <? 0)); [discriminate|]. congruence.
Qed.

Lemma as_intp_Ok i r : as_intp i = Ok r → r = i.
Proof.
  unfold as_intp.
  destruct ((-9223372036854775808 <=? i) && (i <? 9223372036854775808)); [congruence|].
  destruct ((9223372036854775808 <=? i) && (i <? 18446744073709551616)); discriminate.
Qed.

Lemma as_intp_range i : - 2 ^ 63 <= i < 2 ^ 63 → as_intp i = Ok i.
Proof.
  intros H. unfold as_intp.
  destruct (Z.leb_spec (-9223372036854775808) i), (Z.ltb_spec i 9223372036854775808);
    simpl; try reflexivity; lia.
Qed.

(** What [as_intp] raises, by the size of the index. *)
Lemma as_intp_cases i :
  (- 2 ^ 63 <= i < 2 ^ 63 ∧ as_intp i = Ok i)
  ∨ (2 ^ 63 <= i < 2 ^ 64 ∧ as_intp i = Raise OverflowError)
  ∨ ((i < - 2 ^ 63 ∨ 2 ^ 64 <= i) ∧ as_intp i = Raise IndexError).
Proof.
  unfold as_intp.
  destruct (Z.leb_spec (-9223372036854775808) i), (Z.ltb_spec i 9223372036854775808),
    (Z.leb_spec 9223372036854775808 i), (Z.ltb_spec i 18446744073709551616); simpl;
    first [left; split; [lia|reflexivity]
          |right; left; split; [lia|reflexivity]
          |right; right; split; [lia|reflexivity]].
Qed.

(** The indices numpy accepts are those the bounds rule accepts; on the
    others the exception is [index_exn]. *)
Lemma np_index_eq row col :
  np_index row col =
  match adjust_index row, adjust_index col with
  | Ok i, Ok j => Ok (i, j)
  | _, _ => Raise (index_exn row col)
  end.
Proof.
  unfold np_index, index_exn.
  destruct (as_intp row) as [r|e] eqn:Er; simpl.
  - apply as_intp_Ok in Er as ->.
    destruct (as_intp col) as [c|e] eqn:Ec; simpl.
    + apply as_intp_Ok in Ec as ->.
      destruct (adjust_index row) as [i|e] eqn:Ei; simpl.
      * destruct (adjust_index col) as [j|e] eqn:Ej; simpl; [reflexivity|].
        apply adjust_index_Raise in Ej as ->. reflexivity.
      * apply adjust_index_Raise in Ei as ->. reflexivity.
    + destruct (adjust_index row) as [i|e'] eqn:Ei; [|reflexivity].
      destruct (adjust_index col) as [j|e'] eqn:Ej; [|reflexivity].
      apply adjust_index_range in Ej.
      rewrite as_intp_range in Ec by lia. discriminate.
  - destruct (adjust_index row) as [i|e'] eqn:Ei; [|reflexivity].
    apply adjust_index_range in Ei.
    rewrite as_intp_range in Er by lia. discriminate.
Qed.

Lemma getitem_eq g row col :
  getitem g row col =
  match adjust_index row, adjust_index col with
  | Ok i, Ok j => Ok (get2 g i j)
  | _, _ => Raise (index_exn row col)
  end.
Proof.
  unfold getitem. rewrite np_index_eq.
  destruct (adjust_index row), (adjust_index col); reflexivity.
Qed.

Lemma setitem_eq g row col x :
  setitem g row col x =
  match adjust_index row, adjust_index col with
  | Ok i, Ok j => Ok (set2 g i j x)
  | _, _ => Raise (index_exn row col)
  end.
Proof.
  unfold setitem. rewrite np_index_eq.
  destruct (adjust_index row), (adjust_index col); reflexivity.
Qed.

Lemma getitem_idx g i j : getitem g (Z_of_idx i) (Z_of_idx j) = Ok (get2 g i j).
Proof. rewrite getitem_eq, !adjust_index_idx. reflexivity. Qed.

Lemma setitem_idx g i j x :
  setitem g (Z_of_idx i) (Z_of_idx j) x = Ok (set2 g i j x).
Proof. rewrite setitem_eq, !adjust_index_idx. reflexivity. Qed.

Lemma index_exn_cases row col :
  (index_exn row col = IndexError ∨ index_exn row col = OverflowError)
  ∧ (index_exn row col = OverflowError ↔
     2 ^ 63 <= row < 2 ^ 64 ∨ (- 2 ^ 63 <= row < 2 ^ 63 ∧ 2 ^ 63 <= col < 2 ^ 64)).
Proof.
  unfold index_exn.
  destruct (as_intp_cases row) as [[Hr ->]|[[Hr ->]|[Hr ->]]];
    [destruct (as_intp_cases col) as [[Hc ->]|[[Hc ->]|[Hc ->]]]| |];
    (split; [auto|]); split; try discriminate; try lia; auto.
Qed.

Lemma actions_positions s :
  actions s =
  map Z_of_pos (List.filter (fun p => cell_eqb (get2 (board s) p.1 p.2) EMPTY) positions).
Proof.
  destruct s as [[[a b c] [d e f] [g h i]] np].
  unfold actions, np_nonzero, eq_scalar2, eq_scalar, get2, positions; simpl.
  destruct (cell_eqb a EMPTY), (cell_eqb b EMPTY), (cell_eqb c EMPTY),
    (cell_eqb d EMPTY), (cell_eqb e EMPTY), (cell_eqb f EMPTY),
    (cell_eqb g EMPTY), (cell_eqb h EMPTY), (cell_eqb i EMPTY); reflexivity.
Qed.

Lemma In_actions s r c :
  In (r, c) (actions s) ↔
  ∃ i j, r = Z_of_idx i ∧ c = Z_of_idx j ∧ get2 (board s) i j = EMPTY.
Proof.
  rewrite actions_positions, in_map_iff. split.
  - intros ([i j] & E & H). apply filter_In in H as [_ H].
    apply cell_eqb_eq in H. inversion E. eauto.
  - intros (i & j & -> & -> & H). exists (i, j). split; [reflexivity|].
    apply filter_In. split.
    + destruct i, j; simpl; tauto.
    + apply cell_eqb_eq, H.
Qed.

Lemma move_idx s i j :
  move s (Z_of_idx i) (Z_of_idx j) =
  if cell_eqb (get2 (board s) i j) EMPTY
  then Ok {| board := set2 (board s) i j (Mark (next_player s));
             next_player := flip_player (next_player s) |}
  else Raise ValueError.
Proof.
  unfold move, valid_move. rewrite getitem_idx. simpl.
  destruct (cell_eqb _ _); simpl; [rewrite setitem_idx|]; reflexivity.
Qed.

Lemma length_actions s :
  Z.of_nat (length (actions s)) = count_cell EMPTY (board s).
Proof.
  rewrite actions_positions, length_map.
  destruct s as [[[a b c] [d e f] [g h i]] np].
  unfold count_cell, cells, vlist, positions, get2; simpl.
  destruct (cell_eqb a EMPTY), (cell_eqb b EMPTY), (cell_eqb c EMPTY),
    (cell_eqb d EMPTY), (cell_eqb e EMPTY), (cell_eqb f EMPTY),
    (cell_eqb g EMPTY), (cell_eqb h EMPTY), (cell_eqb i EMPTY); reflexivity.
Qed.

Lemma count_cell_set2 x g i j y :
  count_cell x (set2 g i j y) =
  count_cell x g - (if cell_eqb (get2 g i j) x then 1 else 0)
  + (if cell_eqb y x then 1 else 0).
Proof.
  destruct g as [[a b c] [d e f] [g h k]].
  unfold count_cell, cells, vlist, set2, get2.
  destruct i, j; simpl; lia.
Qed.

Lemma count_cell_range x g : 0 <= count_cell x g <= 9.
Proof.
  destruct g as [[a b c] [d e f] [g h k]].
  unfold count_cell, cells, vlist; simpl.
  repeat match goal with |- context [cell_eqb ?u x] => destruct (cell_eqb u x) end; lia.
Qed.

Lemma count_all l :
  count EMPTY l + count (Mark CROSS) l + count (Mark NOUGHT) l = Z.of_nat (length l).
Proof.
  induction l as [|[|[]] l IH]; simpl length; simpl count; lia.
Qed.

Lemma count_total g : count_cell EMPTY g + count_nonempty g = 9.
Proof.
  unfold count_nonempty, count_cell.
  pose proof (count_all (cells g)) as H. simpl length in H. lia.
Qed.


Lemma all_cells_spec f : all_cells f = true → ∀ c, f c = true.
Proof.
  unfold all_cells. rewrite !andb_true_iff. intros [[H0 H1] H2] [|[]]; assumption.
Qed.

Lemma all_grids_spec f : all_grids f = true → ∀ g, f g = true.
Proof.
  intros H [[a b c] [d e f'] [g h i]]. unfold all_grids in H.
  apply all_cells_spec with (c := a) in H.
  apply all_cells_spec with (c := b) in H.
  apply all_cells_spec with (c := c) in H.
  apply all_cells_spec with (c := d) in H.
  apply all_cells_spec with (c := e) in H.
  apply all_cells_spec with (c := f') in H.
  apply all_cells_spec with (c := g) in H.
  apply all_cells_spec with (c := h) in H.
  apply all_cells_spec with (c := i) in H.
  exact H.
Qed.

Lemma winner_check_all : all_grids winner_check = true.
Proof. vm_compute. reflexivity. Qed.

Lemma has_lineb_spec p g : has_lineb p g = true ↔ has_line p g.
Proof.
  unfold has_lineb, has_line. rewrite existsb_exists. split.
  - intros (l & Hl & H). exists l. split; [apply list_elem_of_In, Hl|].
    intros q Hq. rewrite forallb_forall in H. apply cell_eqb_eq, H, list_elem_of_In, Hq.
  - intros (l & Hl & H). exists l. split; [apply list_elem_of_In, Hl|].
    apply forallb_forall. intros q Hq. apply cell_eqb_eq, H, list_elem_of_In, Hq.
Qed.

Lemma fullb_spec g : fullb g = true ↔ full g.
Proof.
  unfold fullb, full. rewrite forallb_forall. split.
  - intros H i j Hc. specialize (H (i, j)). simpl in H. rewrite Hc in H.
    assert (In (i, j) positions) by (destruct i, j; simpl; tauto).
    specialize (H H0). discriminate.
  - intros H [i j] _. simpl. specialize (H i j).
    destruct (get2 g i j); [congruence | reflexivity].
Qed.

Lemma winner_board s : winner s = winner_of (board s).
Proof. reflexivity. Qed.

Lemma winner_checked s : winner_check (board s) = true.
Proof. apply all_grids_spec, winner_check_all. Qed.

Lemma winner_facts s :
  match winner s with
  | Sym (Mark p) => has_line p (board s)
  | Sym EMPTY => False
  | DRAW => full (board s) ∧ ¬ has_line CROSS (board s) ∧ ¬ has_line NOUGHT (board s)
  | FALSE => ¬ full (board s) ∧ ¬ has_line CROSS (board s) ∧ ¬ has_line NOUGHT (board s)
  end.
Proof.
  pose proof (winner_checked s) as H. unfold winner_check in H.
  rewrite <- winner_board in H.
  rewrite !andb_true_iff in H. destruct H as [[H _] _].
  destruct (winner s) as [[|p]| |].
  - discriminate.
  - apply has_lineb_spec, H.
  - rewrite !andb_true_iff, !negb_true_iff in H. destruct H as [[H1 H2] H3].
    rewrite <- fullb_spec, <- !has_lineb_spec. rewrite H1, H2, H3. 
    repeat split; congruence.
  - rewrite !andb_true_iff, !negb_true_iff in H. destruct H as [[H1 H2] H3].
    rewrite <- fullb_spec, <- !has_lineb_spec. rewrite H1, H2, H3.
    repeat split; congruence.
Qed.


Lemma full_no_actions s : full (board s) ↔ actions s = [].
Proof.
  split.
  - intros H. destruct (actions s) as [|[r c] l] eqn:E; [reflexivity|].
    assert (In (r, c) (actions s)) as Hin by (rewrite E; left; reflexivity).
    apply In_actions in Hin as (i & j & _ & _ & Hc). destruct (H i j Hc).
  - intros H i j Hc.
    assert (In (Z_of_idx i, Z_of_idx j) (actions s)) as Hin by (apply In_actions; eauto).
    rewrite H in Hin. destruct Hin.
Qed.

Lemma winner_FALSE_actions s : winner s = FALSE → actions s ≠ [].
Proof.
  intros H E. pose proof (winner_facts s) as W. rewrite H in W.
  destruct W as [W _]. apply W, full_no_actions, E.
Qed.

Lemma terminal_value_None p s : terminal_value p s = None ↔ winner s = FALSE.
Proof.
  unfold terminal_value. pose proof (winner_facts s) as W.
  destruct (winner s) as [[|q]| |]; split; try congruence; try tauto.
Qed.

Lemma terminal_value_finite p s v :
  terminal_value p s = Some v → v = Fin (-1) ∨ v = Fin 0 ∨ v = Fin 1.
Proof.
  unfold terminal_value. destruct (winner s) as [[|q]| |]; try discriminate.
  - destruct (player_eqb q p); intros [= <-]; auto.
  - intros [= <-]; auto.
Qed.

(** The first three tests of [get_value] are [terminal_value]. *)
Lemma get_value_fuel_terminal n s p gm a b v :
  terminal_value p s = Some v →
  get_value_fuel (S n) s p gm a b = Some (Ok v).
Proof.
  unfold terminal_value. simpl. destruct (winner s) as [[|q]| |]; try discriminate.
  - simpl. destruct p, q; simpl; intros [= <-]; reflexivity.
  - simpl. intros [= <-]. destruct p; reflexivity.
Qed.

Lemma get_value_fuel_loop n s p gm a b :
  terminal_value p s = None →
  get_value_fuel (S n) s p gm a b =
  get_value_loop (fun s' a' b' => get_value_fuel n s' p (negb gm) a' b')
    s gm (actions s) a b (if gm then PInf else NInf).
Proof.
  intros H. apply terminal_value_None in H. simpl. rewrite H. simpl.
  destruct gm; reflexivity.
Qed.

(** ** The search *)

Lemma move_action s a :
  In a (actions s) →
  move s a.1 a.2 = Ok (child s a)
  ∧ next_player (child s a) = flip_player (next_player s)
  ∧ (length (actions (child s a)) + 1 = length (actions s))%nat.
Proof.
  destruct a as [r c]. intros H. apply In_actions in H as (i & j & -> & -> & Hc).
  unfold child. simpl. rewrite move_idx, Hc. simpl. split; [reflexivity|].
  split; [reflexivity|].
  apply Nat2Z.inj. rewrite Nat2Z.inj_add, !length_actions. simpl.
  rewrite count_cell_set2, Hc. simpl. lia.
Qed.

Lemma successors_of_children s acts :
  (∀ a, In a acts → In a (actions s)) →
  successors_of s acts = map (child s) acts.
Proof.
  induction acts as [|a acts IH]; intros H; [reflexivity|].
  unfold successors_of in *. simpl.
  destruct (move_action s a) as (E & _); [apply H; left; reflexivity|].
  rewrite E. simpl. unfold child at 1. rewrite E. f_equal. apply IH.
  intros b Hb. apply H. right. exact Hb.
Qed.

Lemma ab_ok_refl a b v : ab_ok a b v v.
Proof. unfold ab_ok. ext_lia. Qed.

Section Loops.

Variable rec_call : State → ext → ext → fueled ext.
Variable state : State.
Variable T : State → ext.

Lemma rec_ok_tail a acts :
  rec_ok rec_call state T (a :: acts) → rec_ok rec_call state T acts.
Proof. intros H b Hb. apply H. right. exact Hb. Qed.

Lemma get_value_loop_max acts :
  rec_ok rec_call state T acts →
  ∀ alpha beta best, ext_lt alpha beta → ext_le best alpha →
  ∃ v, get_value_loop rec_call state false acts alpha beta best = Some (Ok v)
       ∧ ab_ok alpha beta (ext_max_list (map T (map (child state) acts))) v
       ∧ ext_le best v.
Proof.
  induction acts as [|a acts IH]; intros Hrec alpha beta best Hab Hbest.
  - exists best. simpl. split; [reflexivity|]. split; [|ext_lia].
    unfold ab_ok. ext_lia.
  - destruct (Hrec a) as (Hin & Hcall); [left; reflexivity|].
    destruct (move_action state a Hin) as (Emove & _).
    destruct (Hcall alpha beta Hab) as (v1 & Ecall & Hv1).
    simpl. rewrite Emove, Ecall.
    change (ext_max_list (T (child state a) :: map T (map (child state) acts)))
      with (ext_max (T (child state a)) (ext_max_list (map T (map (child state) acts)))).
    destruct (ext_leb beta v1) eqn:Ecut.
    + exists v1. split; [reflexivity|]. split.
      * apply max_cut; assumption.
      * eapply max_cut_best; eassumption.
    + destruct (max_step_inv alpha beta best _ v1 Hv1 Hab Hbest Ecut) as (Hab' & Hbest').
      destruct (IH (rec_ok_tail _ _ Hrec) _ _ _ Hab' Hbest') as (v & Eloop & Hv & Hle).
      rewrite orb_false_r.
      exists v. split; [exact Eloop|].
      apply max_best_le in Hle as (Hle1 & Hle2). split; [|exact Hle1].
      eapply max_step_post; eassumption.
Qed.

Lemma get_value_loop_min acts :
  rec_ok rec_call state T acts →
  ∀ alpha beta best, ext_lt alpha beta → ext_le beta best →
  ∃ v, get_value_loop rec_call state true acts alpha beta best = Some (Ok v)
       ∧ ab_ok alpha beta (ext_min_list (map T (map (child state) acts))) v
       ∧ ext_le v best.
Proof.
  induction acts as [|a acts IH]; intros Hrec alpha beta best Hab Hbest.
  - exists best. simpl. split; [reflexivity|]. split; [|ext_lia].
    unfold ab_ok. ext_lia.
  - destruct (Hrec a) as (Hin & Hcall); [left; reflexivity|].
    destruct (move_action state a Hin) as (Emove & _).
    destruct (Hcall alpha beta Hab) as (v1 & Ecall & Hv1).
    simpl. rewrite Emove, Ecall.
    change (ext_min_list (T (child state a) :: map T (map (child state) acts)))
      with (ext_min (T (child state a)) (ext_min_list (map T (map (child state) acts)))).
    destruct (ext_leb v1 alpha) eqn:Ecut.
    + exists v1. split; [reflexivity|]. split.
      * apply min_cut; assumption.
      * eapply min_cut_best; eassumption.
    + destruct (min_step_inv alpha beta best _ v1 Hv1 Hab Hbest Ecut) as (Hab' & Hbest').
      destruct (IH (rec_ok_tail _ _ Hrec) _ _ _ Hab' Hbest') as (v & Eloop & Hv & Hle).
      exists v. split; [exact Eloop|].
      apply min_best_le in Hle as (Hle1 & Hle2). split; [|exact Hle1].
      eapply min_step_post; eassumption.
Qed.

End Loops.

Lemma successors_children s : successors s = map (child s) (actions s).
Proof. apply successors_of_children. auto. Qed.

Lemma minimax_depth_terminal n p gm s v :
  terminal_value p s = Some v → minimax_depth n p gm s = v.
Proof. intros H. destruct n; simpl; rewrite H; reflexivity. Qed.

Lemma minimax_depth_step n p gm s :
  terminal_value p s = None →
  minimax_depth (S n) p gm s =
  let vs := map (minimax_depth n p (negb gm)) (map (child s) (actions s)) in
  if gm then ext_min_list vs else ext_max_list vs.
Proof. intros H. simpl. rewrite H, successors_children. reflexivity. Qed.

Lemma length_actions_le s : (length (actions s) <= 9)%nat.
Proof.
  pose proof (length_actions s). pose proof (count_cell_range EMPTY (board s)). lia.
Qed.

(** With enough fuel [get_value] returns, and what it returns is sound for
    its window. *)
Lemma get_value_fuel_ok n p :
  ∀ s gm alpha beta,
    (length (actions s) <= n)%nat → ext_lt alpha beta →
    ∃ v, get_value_fuel (S n) s p gm alpha beta = Some (Ok v)
         ∧ ab_ok alpha beta (minimax_depth n p gm s) v.
Proof.
  induction n as [|n IH]; intros s gm alpha beta Hn Hab.
  - destruct (terminal_value p s) as [v|] eqn:E.
    + exists v. split; [eapply get_value_fuel_terminal, E|].
      rewrite (minimax_depth_terminal _ _ _ _ _ E). apply ab_ok_refl.
    + apply terminal_value_None, winner_FALSE_actions in E.
      destruct (actions s); [congruence | simpl in Hn; lia].
  - destruct (terminal_value p s) as [v|] eqn:E.
    + exists v. split; [eapply get_value_fuel_terminal, E|].
      rewrite (minimax_depth_terminal _ _ _ _ _ E). apply ab_ok_refl.
    + rewrite get_value_fuel_loop, minimax_depth_step by exact E.
      assert (rec_ok (fun s' a' b' => get_value_fuel (S n) s' p (negb gm) a' b')
                s (minimax_depth n p (negb gm)) (actions s)) as Hrec.
      { intros a Ha. split; [exact Ha|]. intros a' b' Hab'. apply IH; [|exact Hab'].
        destruct (move_action s a Ha) as (_ & _ & Hlen). lia. }
      destruct gm; simpl.
      * destruct (get_value_loop_min _ _ _ _ Hrec alpha beta PInf Hab) as (v & Ev & Hv & _);
          [ext_lia|]. eauto.
      * destruct (get_value_loop_max _ _ _ _ Hrec alpha beta NInf Hab) as (v & Ev & Hv & _);
          [ext_lia|]. eauto.
Qed.

Lemma ext_max_list_finite l :
  l ≠ [] → Forall finite_value l → finite_value (ext_max_list l).
Proof.
  intros Hne H. induction H as [|v l Hv Hl IH]; [congruence|].
  change (finite_value (ext_max v (ext_max_list l))).
  destruct l as [|w l].
  - simpl. destruct Hv as [->|[->| ->]]; unfold finite_value; auto.
  - specialize (IH ltac:(congruence)).
    destruct (ext_max_cases v (ext_max_list (w :: l))) as [[_ ->]|[_ ->]]; assumption.
Qed.

Lemma ext_min_list_finite l :
  l ≠ [] → Forall finite_value l → finite_value (ext_min_list l).
Proof.
  intros Hne H. induction H as [|v l Hv Hl IH]; [congruence|].
  change (finite_value (ext_min v (ext_min_list l))).
  destruct l as [|w l].
  - simpl. destruct Hv as [->|[->| ->]]; unfold finite_value; auto.
  - specialize (IH ltac:(congruence)).
    destruct (ext_min_cases v (ext_min_list (w :: l))) as [[_ ->]|[_ ->]]; assumption.
Qed.

Lemma minimax_depth_finite n p :
  ∀ s gm, (length (actions s) <= n)%nat → finite_value (minimax_depth n p gm s).
Proof.
  induction n as [|n IH]; intros s gm Hn.
  - destruct (terminal_value p s) as [v|] eqn:E.
    + rewrite (minimax_depth_terminal _ _ _ _ _ E). eapply terminal_value_finite, E.
    + apply terminal_value_None, winner_FALSE_actions in E.
      destruct (actions s); [congruence | simpl in Hn; lia].
  - destruct (terminal_value p s) as [v|] eqn:E.
    + rewrite (minimax_depth_terminal _ _ _ _ _ E). eapply terminal_value_finite, E.
    + rewrite minimax_depth_step by exact E. simpl.
      assert (map (minimax_depth n p (negb gm)) (map (child s) (actions s)) ≠ []) as Hne.
      { apply terminal_value_None, winner_FALSE_actions in E.
        destruct (actions s); [congruence | discriminate]. }
      assert (Forall finite_value
                (map (minimax_depth n p (negb gm)) (map (child s) (actions s)))) as Hall.
      { rewrite map_map. apply Forall_forall. intros v Hv.
        apply list_elem_of_In, in_map_iff in Hv as (a & <- & Ha). apply IH.
        destruct (move_action s a Ha) as (_ & _ & Hlen). lia. }
      destruct gm; [apply ext_min_list_finite | apply ext_max_list_finite]; assumption.
Qed.

(** The depth given to the exhaustive search does not matter once it covers
    the empty cells. *)
Lemma minimax_depth_stable n p :
  ∀ m s gm, (length (actions s) <= n)%nat → (length (actions s) <= m)%nat →
    minimax_depth n p gm s = minimax_depth m p gm s.
Proof.
  induction n as [|n IH]; intros m s gm Hn Hm.
  - destruct (terminal_value p s) as [v|] eqn:E.
    + rewrite !(minimax_depth_terminal _ _ _ _ _ E). reflexivity.
    + apply terminal_value_None, winner_FALSE_actions in E.
      destruct (actions s); [congruence | simpl in Hn; lia].
  - destruct (terminal_value p s) as [v|] eqn:E.
    + rewrite !(minimax_depth_terminal _ _ _ _ _ E). reflexivity.
    + destruct m as [|m].
      { apply terminal_value_None, winner_FALSE_actions in E.
        destruct (actions s); [congruence | simpl in Hm; lia]. }
      rewrite !minimax_depth_step by exact E. simpl.
      assert (map (minimax_depth n p (negb gm)) (map (child s) (actions s))
              = map (minimax_depth m p (negb gm)) (map (child s) (actions s))) as ->.
      { apply map_ext_in. intros s' Hs'. apply in_map_iff in Hs' as (a & <- & Ha).
        destruct (move_action s a Ha) as (_ & _ & Hlen). apply IH; lia. }
      reflexivity.
Qed.

Lemma minimax_finite p gm s : finite_value (minimax p gm s).
Proof. apply minimax_depth_finite, length_actions_le. Qed.

Lemma finite_value_window v t : finite_value t → ab_ok NInf PInf t v → v = t.
Proof.
  intros Ht (H & _ & _). apply H; destruct Ht as [->|[->| ->]]; reflexivity.
Qed.

(** Called with the full window, [get_value] returns the minimax value,
    whatever fuel it is given beyond the number of empty cells. *)
Lemma get_value_fuel_exact n s p gm :
  (length (actions s) <= n)%nat →
  get_value_fuel (S n) s p gm NInf PInf = Some (Ok (minimax p gm s)).
Proof.
  intros Hn.
  destruct (get_value_fuel_ok n p s gm NInf PInf Hn) as (v & E & Hv); [reflexivity|].
  rewrite E. do 2 f_equal.
  unfold minimax. rewrite (minimax_depth_stable 9 p n) by (apply length_actions_le || exact Hn).
  apply finite_value_window; [|exact Hv].
  apply minimax_depth_finite, Hn.
Qed.

Lemma get_value_exact s p gm :
  get_value s p gm NInf PInf = Some (Ok (minimax p gm s)).
Proof. apply get_value_fuel_exact, length_actions_le. Qed.

Lemma minimax_unfold p gm s :
  minimax p gm s =
  match terminal_value p s with
  | Some v => v
  | None =>
    let vs := map (minimax p (negb gm)) (successors s) in
    if gm then ext_min_list vs else ext_max_list vs
  end.
Proof.
  unfold minimax at 1. destruct (terminal_value p s) as [v|] eqn:E.
  - apply minimax_depth_terminal, E.
  - rewrite minimax_depth_step by exact E. rewrite successors_children. cbv zeta.
    assert (map (minimax_depth 8 p (negb gm)) (map (child s) (actions s))
            = map (minimax p (negb gm)) (map (child s) (actions s))) as ->; [|reflexivity].
    apply map_ext_in. intros s' Hs'. apply in_map_iff in Hs' as (a & <- & Ha).
    destruct (move_action s a Ha) as (_ & _ & Hlen).
    pose proof (length_actions_le s).
    apply minimax_depth_stable; lia.
Qed.

Lemma player_eqb_flip q p : player_eqb (flip_player q) p = negb (player_eqb q p).
Proof. destruct p, q; reflexivity. Qed.

(** Alternating by depth is alternating by turn, once the first layer is
    right: [get_min] holds exactly when it is not [p]'s turn. *)
Lemma minimax_depth_game_value n p :
  ∀ s, minimax_depth n p (negb (player_eqb (next_player s) p)) s = game_value_depth n p s.
Proof.
  induction n as [|n IH]; intros s; simpl.
  - destruct (terminal_value p s); [reflexivity|].
    destruct (player_eqb (next_player s) p); reflexivity.
  - destruct (terminal_value p s); [reflexivity|].
    rewrite successors_children.
    assert (map (minimax_depth n p (negb (negb (player_eqb (next_player s) p))))
              (map (child s) (actions s))
            = map (game_value_depth n p) (map (child s) (actions s))) as ->.
    { apply map_ext_in. intros s' Hs'. apply in_map_iff in Hs' as (a & <- & Ha).
      destruct (move_action s a Ha) as (_ & Hnp & _).
      rewrite <- IH, Hnp, player_eqb_flip. reflexivity. }
    destruct (player_eqb (next_player s) p); reflexivity.
Qed.

Lemma minimax_game_value p s :
  minimax p (negb (player_eqb (next_player s) p)) s = game_value p s.
Proof. apply minimax_depth_game_value. Qed.

Lemma player_eqb_refl p : player_eqb p p = true.
Proof. destruct p; reflexivity. Qed.

(** What the root loop sees for a legal move: the game value of the position
    it leads to, for the player to move at the root. *)
Lemma get_value_child s a :
  In a (actions s) →
  get_value (child s a) (next_player s) true NInf PInf
  = Some (Ok (game_value (next_player s) (child s a))).
Proof.
  intros Ha. rewrite get_value_exact. do 2 f_equal.
  rewrite <- minimax_game_value.
  destruct (move_action s a Ha) as (_ & -> & _).
  rewrite player_eqb_flip, player_eqb_refl. reflexivity.
Qed.

Lemma game_value_finite p s : finite_value (game_value p s).
Proof. rewrite <- minimax_game_value. apply minimax_finite. Qed.

Lemma game_value_unfold p s :
  game_value p s =
  match terminal_value p s with
  | Some v => v
  | None =>
    let vs := map (game_value p) (successors s) in
    if player_eqb (next_player s) p then ext_max_list vs else ext_min_list vs
  end.
Proof.
  rewrite <- minimax_game_value, minimax_unfold.
  destruct (terminal_value p s); [reflexivity|]. cbv zeta.
  rewrite successors_children.
  assert (map (minimax p (negb (negb (player_eqb (next_player s) p))))
            (map (child s) (actions s))
          = map (game_value p) (map (child s) (actions s))) as ->.
  { apply map_ext_in. intros s' Hs'. apply in_map_iff in Hs' as (a & <- & Ha).
    destruct (move_action s a Ha) as (_ & Hnp & _).
    rewrite <- minimax_game_value, Hnp, player_eqb_flip. reflexivity. }
  destruct (player_eqb (next_player s) p); reflexivity.
Qed.

(** ** The choice at the root *)

Lemma next_move_loop_pick value_of s V todo :
  (∀ a, In a todo → In a (actions s) ∧ value_of (child s a) = Some (Ok (V a))) →
  ∀ ba bv, next_move_loop value_of s todo ba bv = Some (Ok (pick V todo ba bv)).
Proof.
  induction todo as [|a todo IH]; intros H ba bv; [reflexivity|].
  destruct (H a) as (Ha & Ev); [left; reflexivity|].
  destruct (move_action s a Ha) as (Emove & _).
  simpl. rewrite Emove, Ev.
  destruct (ext_ltb bv (V a)); apply IH; intros b Hb; apply H; right; exact Hb.
Qed.

Lemma ext_eqb_refl v : ext_eqb v v = true.
Proof. apply ext_eqb_eq. reflexivity. Qed.

Lemma ext_eqb_neq a b : a ≠ b → ext_eqb a b = false.
Proof.
  intros H. destruct (ext_eqb a b) eqn:E; [|reflexivity].
  apply ext_eqb_eq in E. contradiction.
Qed.

Lemma ext_lt_neq a b : ext_lt a b → a ≠ b.
Proof. ext_lia. Qed.

Lemma pick_spec V todo :
  ∀ ba bv,
    pick V todo ba bv =
    if ext_ltb bv (ext_max_list (map V todo))
    then head_twice (argmax V todo)
    else ba ++ with_value V bv todo.
Proof.
  induction todo as [|a todo IH]; intros ba bv.
  - simpl. replace (ext_ltb bv NInf) with false by (destruct bv; reflexivity).
    rewrite app_nil_r. reflexivity.
  - unfold argmax, with_value in *. simpl map. simpl pick.
    change (ext_max_list (V a :: map V todo))
      with (ext_max (V a) (ext_max_list (map V todo))).
    set (v := V a) in *. set (M := ext_max_list (map V todo)) in *.
    destruct (ext_ltb bv v) eqn:E1.
    + rewrite ext_eqb_refl, IH. simpl.
      replace (ext_ltb bv (ext_max v M)) with true by (symmetry; ext_lia).
      destruct (ext_ltb v M) eqn:E2.
      * replace (ext_max v M) with M by (unfold ext_max; rewrite E2; reflexivity).
        fold v. rewrite (ext_eqb_neq v M) by (apply ext_lt_neq, E2). reflexivity.
      * replace (ext_max v M) with v by (unfold ext_max; rewrite E2; reflexivity).
        fold v. rewrite ext_eqb_refl. reflexivity.
    + rewrite IH. destruct (ext_ltb bv M) eqn:E2.
      * replace (ext_max v M) with M by (symmetry; ext_lia).
        rewrite E2. simpl. fold v.
        rewrite (ext_eqb_neq v M) by ext_lia. reflexivity.
      * replace (ext_ltb bv (ext_max v M)) with false by (symmetry; ext_lia).
        simpl. fold v. destruct (ext_eqb v bv); [|reflexivity].
        rewrite <- app_assoc. reflexivity.
Qed.

Lemma ext_max_list_ge l v : In v l → ext_le v (ext_max_list l).
Proof.
  induction l as [|w l IH]; [intros []|].
  change (ext_max_list (w :: l)) with (ext_max w (ext_max_list l)).
  intros [->|H].
  - ext_lia.
  - specialize (IH H). revert IH. generalize (ext_max_list l). ext_lia.
Qed.

Lemma ext_max_list_in l : l ≠ [] → Forall finite_value l → In (ext_max_list l) l.
Proof.
  intros Hne H. induction H as [|v l Hv Hl IH]; [congruence|].
  change (ext_max_list (v :: l)) with (ext_max v (ext_max_list l)).
  destruct l as [|w l].
  - left. destruct Hv as [->|[->| ->]]; reflexivity.
  - specialize (IH ltac:(congruence)).
    destruct (ext_max_cases v (ext_max_list (w :: l))) as [[_ ->]|[_ ->]];
      [right; exact IH | left; reflexivity].
Qed.

Lemma In_with_value V m l a : In a (with_value V m l) ↔ In a l ∧ V a = m.
Proof. unfold with_value. rewrite filter_In, ext_eqb_eq. reflexivity. Qed.

Lemma In_argmax V l a :
  In a (argmax V l) ↔ In a l ∧ V a = ext_max_list (map V l).
Proof. apply In_with_value. Qed.

Lemma argmax_nonempty V l :
  l ≠ [] → (∀ a, In a l → finite_value (V a)) → argmax V l ≠ [].
Proof.
  intros Hne Hfin.
  assert (In (ext_max_list (map V l)) (map V l)) as H.
  { apply ext_max_list_in.
    - destruct l; [congruence | discriminate].
    - apply Forall_forall. intros v Hv.
      apply list_elem_of_In, in_map_iff in Hv as (a & <- & Ha). apply Hfin, Ha. }
  apply in_map_iff in H as (a & Ea & Ha).
  assert (In a (argmax V l)) as Hin by (apply In_argmax; auto).
  destruct (argmax V l); [destruct Hin | discriminate].
Qed.

Lemma In_head_twice {A : Type} (l : list A) x : In x (head_twice l) ↔ In x l.
Proof. destruct l as [|y l]; simpl; tauto. Qed.

Lemma root_value_finite s a : finite_value (root_value s a).
Proof. apply game_value_finite. Qed.

Lemma finite_value_gt v : finite_value v → ext_ltb NInf v = true.
Proof. intros [->|[->| ->]]; reflexivity. Qed.

(** The list [next_move] hands to [random.choice]: the best moves in the
    order of [actions], the first of them twice. *)
Lemma best_actions_shape s :
  best_actions s = Some (Ok (head_twice (argmax (root_value s) (actions s)))).
Proof.
  unfold best_actions.
  rewrite (next_move_loop_pick _ s (root_value s)).
  - rewrite pick_spec. destruct (actions s) as [|a l] eqn:E; [reflexivity|].
    rewrite finite_value_gt; [reflexivity|].
    apply ext_max_list_finite; [discriminate|].
    apply Forall_forall. intros v Hv.
    apply list_elem_of_In, in_map_iff in Hv as (b & <- & _). apply root_value_finite.
  - intros a Ha. split; [exact Ha|]. apply get_value_child, Ha.
Qed.

Lemma best_actions_exhaustive_shape s :
  best_actions_exhaustive s = Some (Ok (head_twice (argmax (root_value s) (actions s)))).
Proof.
  unfold best_actions_exhaustive.
  rewrite (next_move_loop_pick _ s (root_value s)).
  - rewrite pick_spec. destruct (actions s) as [|a l] eqn:E; [reflexivity|].
    rewrite finite_value_gt; [reflexivity|].
    apply ext_max_list_finite; [discriminate|].
    apply Forall_forall. intros v Hv.
    apply list_elem_of_In, in_map_iff in Hv as (b & <- & _). apply root_value_finite.
  - intros a Ha. split; [exact Ha|]. do 2 f_equal.
    unfold root_value. rewrite <- minimax_game_value.
    destruct (move_action s a Ha) as (_ & -> & _).
    rewrite player_eqb_flip, player_eqb_refl. reflexivity.
Qed.

Lemma random_choice_In {A : Type} (l : list A) draw :
  l ≠ [] → ∃ x, random_choice l draw = Ok x ∧ In x l.
Proof.
  intros Hne. unfold random_choice.
  assert (draw `mod` length l < length l)%nat as Hlt.
  { apply Nat.mod_upper_bound. destruct l; [congruence | simpl; lia]. }
  destruct (lookup_lt_is_Some_2 l _ Hlt) as [x Hx]. rewrite Hx.
  exists x. split; [reflexivity|]. apply list_elem_of_In. eapply list_elem_of_lookup_2, Hx.
Qed.

Lemma next_move_In s draw :
  actions s ≠ [] →
  ∃ m, next_move s draw = Some (Ok m) ∧ In m (argmax (root_value s) (actions s)).
Proof.
  intros Hne. unfold next_move. rewrite best_actions_shape.
  destruct (random_choice_In (head_twice (argmax (root_value s) (actions s))) draw)
    as (m & Em & Hm).
  - pose proof (argmax_nonempty (root_value s) (actions s) Hne
                  (fun a _ => root_value_finite s a)) as H.
    destruct (argmax (root_value s) (actions s)); [congruence | discriminate].
  - exists m. rewrite Em. split; [reflexivity|]. apply In_head_twice, Hm.
Qed.

Lemma next_move_moveless s draw :
  actions s = [] → next_move s draw = Some (Raise IndexError).
Proof.
  intros E. unfold next_move. rewrite best_actions_shape, E. reflexivity.
Qed.

(** ** Objects: [move] leaves the store it was given as it was *)

Lemma obj_load_inv (h : Obj.heap) (self : Obj.loc) s :
  Obj.load h self = Some s →
  ∃ b, h !! self = Some (Obj.Instance b (next_player s))
       ∧ h !! b = Some (Obj.Array (board s)).
Proof.
  unfold Obj.load, Obj.load_instance, Obj.load_array. intros H.
  destruct (h !! self) as [[g0|b p]|] eqn:E1; simpl in H; try discriminate.
  destruct (h !! b) as [[g|b0 p0]|] eqn:E2; simpl in H; try discriminate.
  injection H as <-. exists b. auto.
Qed.

Lemma obj_load_intro (h : Obj.heap) (self b : Obj.loc) g p :
  h !! self = Some (Obj.Instance b p) → h !! b = Some (Obj.Array g) →
  Obj.load h self = Some {| board := g; next_player := p |}.
Proof.
  intros E1 E2. unfold Obj.load, Obj.load_instance, Obj.load_array.
  rewrite E1. simpl. rewrite E2. reflexivity.
Qed.

Lemma obj_valid_move (h : Obj.heap) (self : Obj.loc) s row col :
  Obj.load h self = Some s →
  Obj.valid_move h self row col = Some (valid_move s row col).
Proof.
  intros H. apply obj_load_inv in H as (b & E1 & E2).
  unfold Obj.valid_move, Obj.load_instance, Obj.load_array.
  rewrite E1. simpl. rewrite E2. reflexivity.
Qed.

Lemma fresh_lookup (h : Obj.heap) : h !! fresh (dom h) = None.
Proof. apply not_elem_of_dom, is_fresh. Qed.

Lemma obj_move_spec (h : Obj.heap) (self : Obj.loc) s row col :
  Obj.load h self = Some s →
  ∃ res h',
    Obj.move h self row col = Some (res, h')
    ∧ (∀ l, is_Some (h !! l) → h' !! l = h !! l)
    ∧ match move s row col with
      | Ok s' => ∃ l', res = Ok l' ∧ h !! l' = None ∧ Obj.load h' l' = Some s'
      | Raise e => res = Raise e ∧ h' = h
      end.
Proof.
  intros Hload. pose proof (obj_valid_move h self s row col Hload) as Hvalid.
  apply obj_load_inv in Hload as (b & E1 & E2).
  unfold Obj.move. rewrite Hvalid. simpl.
  unfold move. destruct (valid_move s row col) as [[|]|e] eqn:Ev; simpl.
  - (* the cell is empty *)
    unfold Obj.deepcopy, Obj.load_instance, Obj.load_array, Obj.alloc.
    rewrite E1. simpl. rewrite E2. simpl.
    set (la := fresh (dom h)).
    set (h1 := <[la := Obj.Array (board s)]> h).
    set (lo := fresh (dom h1)).
    set (h2 := <[lo := Obj.Instance la (next_player s)]> h1).
    assert (h !! la = None) as Hla by apply fresh_lookup.
    assert (h1 !! lo = None) as Hlo by apply fresh_lookup.
    assert (lo ≠ la) as Hne.
    { intros ->. unfold h1 in Hlo. rewrite lookup_insert_eq in Hlo. discriminate. }
    assert (h !! lo = None) as Hlo'.
    { unfold h1 in Hlo. rewrite lookup_insert_ne in Hlo by congruence. exact Hlo. }
    assert (h2 !! lo = Some (Obj.Instance la (next_player s))) as -> 
      by (unfold h2; apply lookup_insert_eq).
    simpl.
    assert (h2 !! la = Some (Obj.Array (board s))) as ->.
    { unfold h2. rewrite lookup_insert_ne by congruence. unfold h1. apply lookup_insert_eq. }
    simpl.
    destruct (setitem (board s) row col (Mark (next_player s))) as [g'|e] eqn:Es; simpl.
    + rewrite lookup_insert_ne by congruence.
      assert (h2 !! lo = Some (Obj.Instance la (next_player s))) as ->
        by (unfold h2; apply lookup_insert_eq).
      simpl. eexists _, _. split; [reflexivity|]. split.
      * intros l [x Hl].
        assert (l ≠ la) by congruence. assert (l ≠ lo) by congruence.
        rewrite !lookup_insert_ne by congruence. unfold h2, h1.
        rewrite !lookup_insert_ne by congruence. reflexivity.
      * exists lo. split; [reflexivity|]. split; [exact Hlo'|].
        eapply obj_load_intro.
        -- apply lookup_insert_eq.
        -- rewrite lookup_insert_ne by congruence. apply lookup_insert_eq.
    + exfalso. unfold valid_move in Ev. rewrite getitem_eq in Ev. rewrite setitem_eq in Es.
      destruct (adjust_index row); simpl in *; [|discriminate].
      destruct (adjust_index col); simpl in *; discriminate.
  - eexists _, _. split; [reflexivity|]. split; [reflexivity|]. split; reflexivity.
  - eexists _, _. split; [reflexivity|]. split; [reflexivity|]. split; reflexivity.
Qed.

(** ** Indices and moves *)

Lemma adjust_index_cases row :
  (-3 <= row < 3 ∧ ∃ i, adjust_index row = Ok i ∧ Z_of_idx i = row `mod` 3)
  ∨ (¬ (-3 <= row < 3) ∧ adjust_index row = Raise IndexError).
Proof.
  destruct (Z_lt_le_dec row (-3)) as [H|H];
    [right; split; [lia|]; unfold adjust_index;
     replace (0 <=? row) with false by (symmetry; apply Z.leb_gt; lia);
     replace (-3 <=? row) with false by (symmetry; apply Z.leb_gt; lia); reflexivity|].
  destruct (Z_lt_le_dec row 3) as [H'|H'];
    [|right; split; [lia|]; unfold adjust_index;
      replace (row <? 3) with false by (symmetry; apply Z.ltb_ge; lia);
      replace (row <? 0) with false by (symmetry; apply Z.ltb_ge; lia);
      rewrite !andb_false_r; reflexivity].
  left. split; [lia|].
  assert (row = -3 ∨ row = -2 ∨ row = -1 ∨ row = 0 ∨ row = 1 ∨ row = 2) as Hc by lia.
  destruct Hc as [->|[->|[->|[->|[->| ->]]]]]; eexists; split; reflexivity.
Qed.

Lemma in_range_idx row : 0 <= row < 3 → ∃ i, row = Z_of_idx i.
Proof.
  intros H. assert (row = 0 ∨ row = 1 ∨ row = 2) as Hc by lia.
  destruct Hc as [->|[->| ->]]; [exists I0 | exists I1 | exists I2]; reflexivity.
Qed.

Lemma Z_of_idx_range i : 0 <= Z_of_idx i < 3.
Proof. destruct i; simpl; lia. Qed.

Lemma move_inv s row col s' :
  move s row col = Ok s' →
  ∃ i j, adjust_index row = Ok i ∧ adjust_index col = Ok j
         ∧ get2 (board s) i j = EMPTY
         ∧ s' = {| board := set2 (board s) i j (Mark (next_player s));
                   next_player := flip_player (next_player s) |}.
Proof.
  unfold move, valid_move. rewrite getitem_eq.
  destruct (adjust_index row) as [i|] eqn:Ei; simpl; [|discriminate].
  destruct (adjust_index col) as [j|] eqn:Ej; simpl; [|discriminate].
  destruct (cell_eqb (get2 (board s) i j) EMPTY) eqn:E; simpl; [|discriminate].
  rewrite setitem_eq, Ei, Ej. simpl.
  intros [= <-]. exists i, j. apply cell_eqb_eq in E. auto.
Qed.

Lemma valid_move_out_of_range s row col :
  ¬ (-3 <= row < 3 ∧ -3 <= col < 3) →
  valid_move s row col = Raise (index_exn row col).
Proof.
  intros H. unfold valid_move. rewrite getitem_eq.
  destruct (adjust_index_cases row) as [(Hr & i & -> & _)|(_ & ->)]; [|reflexivity].
  destruct (adjust_index_cases col) as [(Hc & j & -> & _)|(_ & ->)]; [|reflexivity].
  lia.
Qed.

Lemma get2_set2_same (g : grid) i j x : get2 (set2 g i j x) i j = x.
Proof. destruct g as [[] [] []], i, j; reflexivity. Qed.

Lemma get2_set2_other (g : grid) i j i' j' x :
  (i', j') ≠ (i, j) → get2 (set2 g i j x) i' j' = get2 g i' j'.
Proof. destruct g as [[] [] []], i, j, i', j'; intros H; try reflexivity; congruence. Qed.

(** ** The order of [actions] *)

Lemma sorted_map_filter {A B : Type} (R : B → B → Prop) (f : A → B) (P : A → bool) l :
  StronglySorted (fun x y => R (f x) (f y)) l →
  StronglySorted R (map f (List.filter P l)).
Proof.
  induction 1 as [|a l Hl IH Ha]; simpl; [constructor|].
  destruct (P a); [|exact IH]. simpl. constructor; [exact IH|].
  apply List.Forall_forall. intros y Hy.
  apply in_map_iff in Hy as (x & <- & Hx). apply filter_In in Hx as [Hx _].
  rewrite List.Forall_forall in Ha. apply Ha, Hx.
Qed.

Lemma positions_sorted :
  StronglySorted (fun p q => move_lt (Z_of_pos p) (Z_of_pos q)) positions.
Proof.
  unfold positions.
  repeat (constructor; [|repeat (constructor; [unfold move_lt; simpl; lia|]); constructor]).
  constructor.
Qed.

Lemma actions_sorted s : StronglySorted move_lt (actions s).
Proof. rewrite actions_positions. apply sorted_map_filter, positions_sorted. Qed.

Lemma In_actions_getitem s r c :
  In (r, c) (actions s) ↔ 0 <= r < 3 ∧ 0 <= c < 3 ∧ getitem (board s) r c = Ok EMPTY.
Proof.
  rewrite In_actions. split.
  - intros (i & j & -> & -> & H). split; [apply Z_of_idx_range|].
    split; [apply Z_of_idx_range|]. rewrite getitem_idx.
    rewrite H. reflexivity.
  - intros (Hr & Hc & H).
    destruct (in_range_idx r Hr) as [i ->]. destruct (in_range_idx c Hc) as [j ->].
    exists i, j. rewrite getitem_idx in H.
    injection H as H. auto.
Qed.

(** ** The turn invariant *)

Lemma turn_invariant_init : turn_invariant init.
Proof. left. split; reflexivity. Qed.

Lemma turn_invariant_move s row col s' :
  turn_invariant s → move s row col = Ok s' → turn_invariant s'.
Proof.
  intros H Hm. apply move_inv in Hm as (i & j & _ & _ & Hc & ->).
  unfold turn_invariant, cross_lead in *. simpl.
  rewrite !count_cell_set2, Hc. simpl.
  destruct H as [[H ->]|[H ->]]; simpl; [right | left]; split; (lia || reflexivity).
Qed.

Lemma reachable_turn_invariant s : reachable s → turn_invariant s.
Proof.
  induction 1 as [|s row col s' _ IH Hm].
  - apply turn_invariant_init.
  - eapply turn_invariant_move; eassumption.
Qed.

(** ** Boards used as examples *)

Lemma reachable_moves s moves s' :
  reachable s →
  fold_left (fun r a => try t <- r; move t a.1 a.2) moves (Ok s) = Ok s' →
  reachable s'.
Proof.
  revert s. induction moves as [|a moves IH]; intros s Hs; simpl.
  - intros [= <-]. exact Hs.
  - destruct (move s a.1 a.2) as [t|e] eqn:E.
    + apply IH. eapply reach_move; eassumption.
    + intros H. exfalso. clear -H. induction moves as [|b moves IHm]; simpl in H;
        [discriminate | auto].
Qed.

Lemma reachable_won_board : reachable won_board.
Proof.
  apply (reachable_moves init [(0, 0); (1, 0); (0, 1); (1, 1); (0, 2)]);
    [constructor | reflexivity].
Qed.


(** * The claims *)

(** C1: on a board in progress with a legal move, [next_move] returns a legal
    move whose resulting position has, for the player [p] to move at the root,
    the largest game value among the positions one legal move away.  The game
    value is +1, -1 and 0 on boards won by [p], won by the opponent and drawn;
    elsewhere it is the maximum over the successors when [p] is to move and
    the minimum when the opponent is, always for the same [p]. *)
Theorem next_move_optimal (s : State) (draw : nat) :
  winner s = FALSE → actions s ≠ [] →
  let p := next_player s in
  ∃ m s',
    next_move s draw = Some (Ok m)
    ∧ In m (actions s)
    ∧ move s m.1 m.2 = Ok s'
    ∧ game_value p s' = ext_max_list (map (game_value p) (successors s))
    ∧ (∀ t, In t (successors s) → ext_le (game_value p t) (game_value p s'))
    ∧ (∀ t, winner t = Sym (Mark p) → game_value p t = Fin 1)
    ∧ (∀ t, winner t = Sym (Mark (flip_player p)) → game_value p t = Fin (-1))
    ∧ (∀ t, winner t = DRAW → game_value p t = Fin 0)
    ∧ (∀ t, winner t = FALSE →
         game_value p t =
         if player_eqb (next_player t) p
         then ext_max_list (map (game_value p) (successors t))
         else ext_min_list (map (game_value p) (successors t))).
Proof.
  intros _ Hne p.
  destruct (next_move_In s draw Hne) as (m & Em & Hm).
  apply In_argmax in Hm as (Hin & Hmax).
  destruct (move_action s m Hin) as (Emove & _).
  assert (map (root_value s) (actions s) = map (game_value p) (successors s)) as Emap.
  { rewrite successors_children, map_map. reflexivity. }
  exists m, (child s m). split; [exact Em|]. split; [exact Hin|].
  split; [exact Emove|]. split; [rewrite <- Emap; exact Hmax|].
  split.
  { intros t Ht. change (game_value p (child s m)) with (root_value s m).
    rewrite Hmax, Emap. apply ext_max_list_ge, in_map, Ht. }
  split.
  { intros t Ht. rewrite game_value_unfold. unfold terminal_value.
    rewrite Ht, player_eqb_refl. reflexivity. }
  split.
  { intros t Ht. rewrite game_value_unfold. unfold terminal_value.
    rewrite Ht, player_eqb_flip, player_eqb_refl. reflexivity. }
  split.
  { intros t Ht. rewrite game_value_unfold. unfold terminal_value.
    rewrite Ht. reflexivity. }
  intros t Ht. rewrite game_value_unfold at 1. unfold terminal_value.
  rewrite Ht. reflexivity.
Qed.

Lemma next_move_optimal_witness :
  ∃ m s',
    next_move must_block 0 = Some (Ok m)
    ∧ In m (actions must_block)
    ∧ move must_block m.1 m.2 = Ok s'
    ∧ game_value NOUGHT s' = ext_max_list (map (game_value NOUGHT) (successors must_block))
    ∧ (∀ t, In t (successors must_block) → ext_le (game_value NOUGHT t) (game_value NOUGHT s'))
    ∧ (∀ t, winner t = Sym (Mark NOUGHT) → game_value NOUGHT t = Fin 1)
    ∧ (∀ t, winner t = Sym (Mark (flip_player NOUGHT)) → game_value NOUGHT t = Fin (-1))
    ∧ (∀ t, winner t = DRAW → game_value NOUGHT t = Fin 0)
    ∧ (∀ t, winner t = FALSE →
         game_value NOUGHT t =
         if player_eqb (next_player t) NOUGHT
         then ext_max_list (map (game_value NOUGHT) (successors t))
         else ext_min_list (map (game_value NOUGHT) (successors t))).
Proof. apply (next_move_optimal must_block 0); [reflexivity | discriminate]. Defined.

(** C2: called with the full window, as [next_move] calls it, [get_value]
    returns the value of the exhaustive minimax, with any fuel that covers
    the empty cells; so every root move gets the same value from both, and
    [next_move] draws from the same list with either search. *)
Theorem alpha_beta_exact (s : State) (p : player) (get_min : bool) :
  get_value s p get_min NInf PInf = Some (Ok (minimax p get_min s))
  ∧ (∀ fuel, (length (actions s) < fuel)%nat →
       get_value_fuel fuel s p get_min NInf PInf = Some (Ok (minimax p get_min s)))
  ∧ (∀ a s', In a (actions s) → move s a.1 a.2 = Ok s' →
       get_value s' (next_player s) true NInf PInf
       = Some (Ok (minimax (next_player s) true s')))
  ∧ best_actions s = best_actions_exhaustive s
  ∧ minimax p get_min s =
    match terminal_value p s with
    | Some v => v
    | None =>
      let vs := map (minimax p (negb get_min)) (successors s) in
      if get_min then ext_min_list vs else ext_max_list vs
    end.
Proof.
  split; [apply get_value_exact|]. split.
  { intros [|n] Hn; [lia|]. apply get_value_fuel_exact. lia. }
  split; [intros a s' _ _; apply get_value_exact|]. split.
  { rewrite best_actions_shape, best_actions_exhaustive_shape. reflexivity. }
  apply minimax_unfold.
Qed.

(** C3 (what the code does): on every board the list handed to
    [random.choice] is the list of the best moves with its first move
    repeated; on the empty board all nine moves have the same value and the
    list has ten entries, the move (0, 0) twice. *)
Theorem best_actions_first_twice :
  (∀ s, best_actions s
        = Some (Ok (head_twice (argmax (root_value s) (actions s)))))
  ∧ best_actions init
    = Some (Ok [(0, 0); (0, 0); (0, 1); (0, 2); (1, 0); (1, 1); (1, 2);
                (2, 0); (2, 1); (2, 2)])
  ∧ map (root_value init) (actions init) = repeat (Fin 0) 9
  ∧ next_move init 0 = Some (Ok (0, 0))
  ∧ next_move init 1 = Some (Ok (0, 0))
  ∧ next_move init 2 = Some (Ok (0, 1)).
Proof.
  split; [exact best_actions_shape|].
  do 4 (split; [vm_compute; reflexivity|]). vm_compute; reflexivity.
Qed.

(** C4, as the claim states it, fails: on a board that crosses have won and
    that still has empty cells, [next_move] returns a move. *)
Lemma next_move_on_won_board :
  winner won_board = Sym (Mark CROSS)
  ∧ actions won_board = [(1, 2); (2, 0); (2, 1); (2, 2)]
  ∧ next_move won_board 0 = Some (Ok (1, 2)).
Proof. repeat split; vm_compute; reflexivity. Qed.

(** C4, amended: [next_move] fails exactly on a board without a legal move,
    with the [IndexError] of [random.choice]; on any board with a legal move,
    won or not, it returns a legal move. *)
Theorem next_move_fails_iff_moveless (s : State) (draw : nat) :
  (actions s = [] → next_move s draw = Some (Raise IndexError))
  ∧ (actions s ≠ [] → ∃ m, next_move s draw = Some (Ok m) ∧ In m (actions s))
  ∧ (next_move s draw = Some (Raise IndexError) ↔ actions s = [])
  ∧ (actions s = [] ↔ full (board s)).
Proof.
  assert (actions s ≠ [] → ∃ m, next_move s draw = Some (Ok m) ∧ In m (actions s)) as H.
  { intros Hne. destruct (next_move_In s draw Hne) as (m & Em & Hm).
    exists m. split; [exact Em|]. apply In_argmax in Hm as [Hm _]. exact Hm. }
  split; [apply next_move_moveless|]. split; [exact H|]. split.
  - split; [|apply next_move_moveless].
    intros E. destruct (actions s) as [|a l] eqn:Ea; [reflexivity|].
    destruct H as (m & Em & _); [discriminate|]. congruence.
  - symmetry. apply full_no_actions.
Qed.



(** C6: on a move inside the grid, [move] raises [ValueError] exactly when the
    cell is not empty, and it raises nothing else; when it raises, the store
    is the one it was given, so the board it was called on is as before. *)
Theorem move_fails_iff_occupied (h : Obj.heap) (self : Obj.loc) (s : State)
    (row col : Z) :
  0 <= row < 3 → 0 <= col < 3 → Obj.load h self = Some s →
  ∃ c res h',
    getitem (board s) row col = Ok c
    ∧ Obj.move h self row col = Some (res, h')
    ∧ (res = Raise ValueError ↔ c ≠ EMPTY)
    ∧ (∀ e, res = Raise e → e = ValueError ∧ h' = h ∧ Obj.load h' self = Some s)
    ∧ (move s row col = Raise ValueError ↔ c ≠ EMPTY).
Proof.
  intros Hr Hc Hload.
  destruct (in_range_idx row Hr) as [i ->]. destruct (in_range_idx col Hc) as [j ->].
  destruct (obj_move_spec h self s (Z_of_idx i) (Z_of_idx j) Hload)
    as (res & h' & Emove & _ & Hres).
  exists (get2 (board s) i j), res, h'.
  split; [apply getitem_idx|].
  split; [exact Emove|].
  rewrite move_idx in *.
  destruct (cell_eqb (get2 (board s) i j) EMPTY) eqn:E.
  - apply cell_eqb_eq in E. destruct Hres as (l' & -> & _).
    split; [split; [discriminate | congruence]|].
    split; [discriminate|]. split; [discriminate | congruence].
  - destruct Hres as (-> & ->).
    assert (get2 (board s) i j ≠ EMPTY) as Hne.
    { intros Hx. apply cell_eqb_eq in Hx. congruence. }
    split; [tauto|]. split; [|tauto].
    intros e [= <-]. auto.
Qed.

Lemma move_fails_iff_occupied_witness :
  ∃ c res h',
    getitem (board must_block) 0 1 = Ok c
    ∧ Obj.move block_heap 0%nat 0 1 = Some (res, h')
    ∧ (res = Raise ValueError ↔ c ≠ EMPTY)
    ∧ (∀ e, res = Raise e →
         e = ValueError ∧ h' = block_heap ∧ Obj.load h' 0%nat = Some must_block)
    ∧ (move must_block 0 1 = Raise ValueError ↔ c ≠ EMPTY).
Proof.
  apply (move_fails_iff_occupied block_heap 0%nat must_block 0 1);
    [lia | lia | reflexivity].
Defined.

(** C7: [actions] returns exactly the positions of the grid whose cell is
    empty, in strictly increasing row-major order (so each once), and their
    number plus the number of crosses and noughts is nine. *)
Theorem actions_row_major (s : State) :
  (∀ r c, In (r, c) (actions s) ↔
          0 <= r < 3 ∧ 0 <= c < 3 ∧ getitem (board s) r c = Ok EMPTY)
  ∧ StronglySorted move_lt (actions s)
  ∧ Z.of_nat (length (actions s)) + count_nonempty (board s) = 9.
Proof.
  split; [intros r c; apply In_actions_getitem|].
  split; [apply actions_sorted|].
  rewrite length_actions. apply count_total.
Qed.

(** C8: on a legal move, [move] returns a new instance whose board has the
    mover's symbol in the target cell and the cells of the receiver elsewhere,
    with the other player to move: noughts after crosses and crosses after
    noughts, never the mover again; every object of the store it was given,
    the receiver and its array among them, is as before. *)
Theorem move_returns_new_board (h : Obj.heap) (self : Obj.loc) (s : State)
    (row col : Z) :
  Obj.load h self = Some s → In (row, col) (actions s) →
  ∃ l' h' s' i j,
    Obj.move h self row col = Some (Ok l', h')
    ∧ Obj.load h' l' = Some s'
    ∧ move s row col = Ok s'
    ∧ row = Z_of_idx i ∧ col = Z_of_idx j
    ∧ get2 (board s') i j = Mark (next_player s)
    ∧ (∀ i' j', (i', j') ≠ (i, j) → get2 (board s') i' j' = get2 (board s) i' j')
    ∧ next_player s' = flip_player (next_player s)
    ∧ next_player s' ≠ next_player s
    ∧ (next_player s = CROSS → next_player s' = NOUGHT)
    ∧ (next_player s = NOUGHT → next_player s' = CROSS)
    ∧ h !! l' = None
    ∧ (∀ l, is_Some (h !! l) → h' !! l = h !! l)
    ∧ Obj.load h' self = Some s.
Proof.
  intros Hload Hin. apply In_actions in Hin as (i & j & -> & -> & Hc).
  destruct (obj_move_spec h self s (Z_of_idx i) (Z_of_idx j) Hload)
    as (res & h' & Emove & Hframe & Hres).
  rewrite move_idx, Hc in Hres. simpl in Hres.
  destruct Hres as (l' & -> & Hfresh & Hload').
  eexists l', h', _, i, j. split; [exact Emove|]. split; [exact Hload'|].
  split; [rewrite move_idx, Hc; reflexivity|].
  split; [reflexivity|]. split; [reflexivity|]. simpl.
  split; [apply get2_set2_same|]. split; [intros i' j'; apply get2_set2_other|].
  split; [reflexivity|].
  split; [destruct (next_player s); discriminate|].
  split; [intros ->; reflexivity|]. split; [intros ->; reflexivity|].
  split; [exact Hfresh|]. split; [exact Hframe|].
  apply obj_load_inv in Hload as (b & E1 & E2).
  destruct s as [g p]. simpl in *. eapply obj_load_intro.
  - rewrite Hframe by eauto. exact E1.
  - rewrite Hframe by eauto. exact E2.
Qed.

Lemma move_returns_new_board_witness :
  ∃ l' h' s' i j,
    Obj.move block_heap 0%nat 0 2 = Some (Ok l', h')
    ∧ Obj.load h' l' = Some s'
    ∧ move must_block 0 2 = Ok s'
    ∧ 0 = Z_of_idx i ∧ 2 = Z_of_idx j
    ∧ get2 (board s') i j = Mark (next_player must_block)
    ∧ (∀ i' j', (i', j') ≠ (i, j) →
         get2 (board s') i' j' = get2 (board must_block) i' j')
    ∧ next_player s' = flip_player (next_player must_block)
    ∧ next_player s' ≠ next_player must_block
    ∧ (next_player must_block = CROSS → next_player s' = NOUGHT)
    ∧ (next_player must_block = NOUGHT → next_player s' = CROSS)
    ∧ block_heap !! l' = None
    ∧ (∀ l, is_Some (block_heap !! l) → h' !! l = block_heap !! l)
    ∧ Obj.load h' 0%nat = Some must_block.
Proof.
  apply (move_returns_new_board block_heap 0%nat must_block 0 2);
    [reflexivity | simpl; tauto].
Defined.

(** C9: on every board of a game the crosses are as many as the noughts or
    one more; the initial board has none of either and crosses to move, and
    every move [move] accepts on a board of a game keeps the bound. *)
Theorem reachable_cross_lead (s : State) :
  reachable s →
  (cross_lead s = 0 ∨ cross_lead s = 1)
  ∧ turn_invariant s
  ∧ (cross_lead init = 0 ∧ next_player init = CROSS
     ∧ ∀ i j, get2 (board init) i j = EMPTY)
  ∧ (∀ row col s', move s row col = Ok s' →
       reachable s' ∧ (cross_lead s' = 0 ∨ cross_lead s' = 1)).
Proof.
  intros Hs. pose proof (reachable_turn_invariant s Hs) as Hinv.
  split; [destruct Hinv as [[H _]|[H _]]; auto|]. split; [exact Hinv|].
  split; [split; [reflexivity|]; split; [reflexivity|]; intros [] []; reflexivity|].
  intros row col s' Hm. split; [eapply reach_move; eassumption|].
  destruct (turn_invariant_move s row col s' Hinv Hm) as [[H _]|[H _]]; auto.
Qed.

Lemma reachable_cross_lead_witness :
  (cross_lead won_board = 0 ∨ cross_lead won_board = 1)
  ∧ turn_invariant won_board
  ∧ (cross_lead init = 0 ∧ next_player init = CROSS
     ∧ ∀ i j, get2 (board init) i j = EMPTY)
  ∧ (∀ row col s', move won_board row col = Ok s' →
       reachable s' ∧ (cross_lead s' = 0 ∨ cross_lead s' = 1)).
Proof. apply (reachable_cross_lead won_board), reachable_won_board. Defined.

(** C10, as the claim states it, fails: a negative index down to -3 is
    counted from the end of the axis, and [valid_move] returns a boolean;
    and an index of 2^63 raises [OverflowError], not [IndexError]. *)
Lemma valid_move_negative_index :
  valid_move init (-1) (-1) = Ok true
  ∧ valid_move full_cross_row (-3) (-1) = Ok false
  ∧ valid_move init (-4) 0 = Raise IndexError
  ∧ valid_move init 0 3 = Raise IndexError
  ∧ valid_move init (2 ^ 63) 0 = Raise OverflowError.
Proof. repeat split; reflexivity. Qed.

(** C10, amended: with both indices in [-3, 2], [valid_move] returns whether
    the cell at the indices taken modulo three is empty, for indices in
    [0, 2] the cell at the indices themselves; with an index outside [-3, 2]
    it raises [IndexError] or [OverflowError]: [OverflowError] exactly when
    the row is from 2^63 to 2^64 - 1, or the row fits 64 bits signed and the
    column is from 2^63 to 2^64 - 1. *)
Theorem valid_move_index (s : State) (row col : Z) :
  (-3 <= row < 3 ∧ -3 <= col < 3 →
     ∃ i j, Z_of_idx i = row `mod` 3 ∧ Z_of_idx j = col `mod` 3
            ∧ valid_move s row col = Ok (cell_eqb (get2 (board s) i j) EMPTY)
            ∧ (valid_move s row col = Ok true ↔ get2 (board s) i j = EMPTY))
  ∧ (0 <= row < 3 ∧ 0 <= col < 3 →
     ∃ c, getitem (board s) row col = Ok c
          ∧ (valid_move s row col = Ok true ↔ c = EMPTY)
          ∧ (valid_move s row col = Ok false ↔ c ≠ EMPTY))
  ∧ (¬ (-3 <= row < 3 ∧ -3 <= col < 3) →
     (valid_move s row col = Raise IndexError
      ∨ valid_move s row col = Raise OverflowError)
     ∧ (valid_move s row col = Raise OverflowError ↔
        2 ^ 63 <= row < 2 ^ 64
        ∨ (- 2 ^ 63 <= row < 2 ^ 63 ∧ 2 ^ 63 <= col < 2 ^ 64))).
Proof.
  assert (¬ (-3 <= row < 3 ∧ -3 <= col < 3) →
          (valid_move s row col = Raise IndexError
           ∨ valid_move s row col = Raise OverflowError)
          ∧ (valid_move s row col = Raise OverflowError ↔
             2 ^ 63 <= row < 2 ^ 64
             ∨ (- 2 ^ 63 <= row < 2 ^ 63 ∧ 2 ^ 63 <= col < 2 ^ 64))) as Hout.
  { intros Hn. rewrite (valid_move_out_of_range s row col Hn).
    destruct (index_exn_cases row col) as [Hc Ho]. split.
    - destruct Hc as [-> | ->]; auto.
    - rewrite <- Ho. split; [intros [= E]; exact E | intros ->; reflexivity]. }
  split; [|split; [|exact Hout]]; intros [Hr Hc]; unfold valid_move; rewrite getitem_eq;
    (destruct (adjust_index_cases row) as [(_ & i & Ei & Hi)|(Hr' & _)]; [|lia]);
    (destruct (adjust_index_cases col) as [(_ & j & Ej & Hj)|(Hc' & _)]; [|lia]);
    rewrite Ei, Ej; simpl.
  - exists i, j. split; [exact Hi|]. split; [exact Hj|].
    split; [reflexivity|]. rewrite <- cell_eqb_eq. split; congruence.
  - exists (get2 (board s) i j). split; [reflexivity|].
    rewrite <- cell_eqb_eq.
    destruct (cell_eqb (get2 (board s) i j) EMPTY); split; split; congruence.
Qed.

(** * More of the board *)

Lemma valid_move_Ok_true s row col :
  valid_move s row col = Ok true ↔
  ∃ i j, adjust_index row = Ok i ∧ adjust_index col = Ok j ∧ get2 (board s) i j = EMPTY.
Proof.
  unfold valid_move. rewrite getitem_eq.
  destruct (adjust_index row) as [i|]; simpl; [|split; [discriminate | intros (i & j & H & _); discriminate]].
  destruct (adjust_index col) as [j|]; simpl; [|split; [discriminate | intros (i' & j' & _ & H & _); discriminate]].
  split.
  - intros [= H]. apply cell_eqb_eq in H. eauto.
  - intros (i' & j' & [= <-] & [= <-] & H). rewrite H. reflexivity.
Qed.

Lemma move_Ok_iff s row col :
  (∃ s', move s row col = Ok s') ↔ valid_move s row col = Ok true.
Proof.
  split.
  - intros (s' & H). apply move_inv in H as (i & j & Hi & Hj & Hc & _).
    apply valid_move_Ok_true. eauto.
  - intros H. unfold move. rewrite H. simpl.
    apply valid_move_Ok_true in H as (i & j & Hi & Hj & _).
    rewrite setitem_eq, Hi, Hj. simpl. eauto.
Qed.

(** X1: [move] succeeds exactly where [valid_move] answers true, and the
    moves [actions] lists are those among them with both indices in [0, 2]. *)
Theorem move_valid_move_actions (s : State) (row col : Z) :
  ((∃ s', move s row col = Ok s') ↔ valid_move s row col = Ok true)
  ∧ (In (row, col) (actions s) ↔
     0 <= row < 3 ∧ 0 <= col < 3 ∧ valid_move s row col = Ok true)
  ∧ (In (row, col) (actions s) ↔
     0 <= row < 3 ∧ 0 <= col < 3 ∧ ∃ s', move s row col = Ok s').
Proof.
  split; [apply move_Ok_iff|].
  assert (In (row, col) (actions s) ↔
          0 <= row < 3 ∧ 0 <= col < 3 ∧ valid_move s row col = Ok true) as H.
  { rewrite In_actions_getitem. unfold valid_move.
    split; intros (Hr & Hc & H); (split; [exact Hr|]; split; [exact Hc|]).
    - rewrite H. reflexivity.
    - destruct (getitem (board s) row col) as [x|]; simpl in H; [|discriminate].
      injection H as H. apply cell_eqb_eq in H. congruence. }
  split; [exact H|]. rewrite H, move_Ok_iff. reflexivity.
Qed.

Lemma adjust_index_mod row i : adjust_index row = Ok i → adjust_index (row `mod` 3) = Ok i.
Proof.
  destruct (adjust_index_cases row) as [(_ & j & E & Hj)|(_ & E)]; rewrite E; [|discriminate].
  intros [= <-]. rewrite <- Hj. apply adjust_index_idx.
Qed.

Lemma move_adjusted s row col i j :
  adjust_index row = Ok i → adjust_index col = Ok j →
  move s row col = move s (Z_of_idx i) (Z_of_idx j).
Proof.
  intros Ei Ej. unfold move, valid_move.
  rewrite !getitem_eq, Ei, Ej, !adjust_index_idx. simpl.
  destruct (cell_eqb (get2 (board s) i j) EMPTY); simpl; [|reflexivity].
  rewrite !setitem_eq, Ei, Ej, !adjust_index_idx. reflexivity.
Qed.

Lemma move_out_of_range s row col :
  ¬ (-3 <= row < 3 ∧ -3 <= col < 3) → move s row col = Raise (index_exn row col).
Proof.
  intros H. unfold move. rewrite (valid_move_out_of_range s row col H). reflexivity.
Qed.

(** X2: an index from -3 to -1 is taken from the end of its axis, so [move]
    at such indices is [move] at the indices modulo three; with an index
    outside [-3, 2] it raises [IndexError] or [OverflowError], whatever the
    cell: [OverflowError] exactly when the row is from 2^63 to 2^64 - 1, or
    the row fits 64 bits signed and the column is from 2^63 to 2^64 - 1. *)
Theorem move_wraps_negative_index (s : State) (row col : Z) :
  (-3 <= row < 3 ∧ -3 <= col < 3 →
     move s row col = move s (row `mod` 3) (col `mod` 3))
  ∧ (¬ (-3 <= row < 3 ∧ -3 <= col < 3) →
     (move s row col = Raise IndexError ∨ move s row col = Raise OverflowError)
     ∧ (move s row col = Raise OverflowError ↔
        2 ^ 63 <= row < 2 ^ 64
        ∨ (- 2 ^ 63 <= row < 2 ^ 63 ∧ 2 ^ 63 <= col < 2 ^ 64)))
  ∧ move s (-1) (-1) = move s 2 2.
Proof.
  split; [|split; [|reflexivity]].
  - intros [Hr Hc].
    destruct (adjust_index_cases row) as [(_ & i & Ei & Hi)|(Hn & _)]; [|tauto].
    destruct (adjust_index_cases col) as [(_ & j & Ej & Hj)|(Hn & _)]; [|tauto].
    rewrite (move_adjusted s row col i j Ei Ej), <- Hi, <- Hj. reflexivity.
  - intros Hn. rewrite (move_out_of_range s row col Hn).
    destruct (index_exn_cases row col) as [Hc Ho]. split.
    + destruct Hc as [-> | ->]; auto.
    + rewrite <- Ho. split; [intros [= E]; exact E | intros ->; reflexivity].
Qed.

Lemma Z_of_idx_range_inj i j : Z_of_idx i = Z_of_idx j → i = j.
Proof. destruct i, j; simpl; intros H; reflexivity || lia. Qed.

Lemma idx_pair_dec (a b : idx * idx) : a = b ∨ a ≠ b.
Proof. destruct a as [[] []], b as [[] []]; (left; reflexivity) || (right; congruence). Qed.

(** X3: once [move] has put a mark in a cell, [valid_move] answers false for
    that cell and a second [move] there raises [ValueError]; the legal moves
    of the new board are those of the old one without the cell played. *)
Theorem move_takes_the_cell (s : State) (row col : Z) (s' : State) :
  move s row col = Ok s' →
  valid_move s' row col = Ok false
  ∧ move s' row col = Raise ValueError
  ∧ (∀ a, In a (actions s') ↔ In a (actions s) ∧ a ≠ (row `mod` 3, col `mod` 3))
  ∧ In (row `mod` 3, col `mod` 3) (actions s)
  ∧ (length (actions s') + 1 = length (actions s))%nat.
Proof.
  intros Hm. apply move_inv in Hm as (i & j & Ei & Ej & Hc & ->).
  assert (row `mod` 3 = Z_of_idx i) as ->.
  { destruct (adjust_index_cases row) as [(_ & i' & E & Hi)|(_ & E)]; congruence. }
  assert (col `mod` 3 = Z_of_idx j) as ->.
  { destruct (adjust_index_cases col) as [(_ & j' & E & Hj)|(_ & E)]; congruence. }
  assert (valid_move
            {| board := set2 (board s) i j (Mark (next_player s));
               next_player := flip_player (next_player s) |} row col = Ok false) as Hv.
  { unfold valid_move. rewrite getitem_eq, Ei, Ej. simpl. rewrite get2_set2_same. reflexivity. }
  split; [exact Hv|]. split; [unfold move; rewrite Hv; reflexivity|]. split.
  { intros [r c]. rewrite !In_actions. simpl. split.
    - intros (i' & j' & -> & -> & H).
      destruct (idx_pair_dec (i', j') (i, j)) as [[= -> ->]|Hne].
      + rewrite get2_set2_same in H. discriminate.
      + rewrite get2_set2_other in H by exact Hne. split; [eauto|].
        intros [= H1 H2]. apply Z_of_idx_range_inj in H1, H2. subst. congruence.
    - intros ((i' & j' & -> & -> & H) & Hne). exists i', j'.
      split; [reflexivity|]. split; [reflexivity|].
      rewrite get2_set2_other; [exact H|]. intros [= -> ->]. apply Hne. reflexivity. }
  split; [apply In_actions; eauto|].
  apply Nat2Z.inj. rewrite Nat2Z.inj_add, !length_actions. simpl.
  rewrite count_cell_set2, Hc. simpl. lia.
Qed.

Lemma move_next_player s row col s' :
  move s row col = Ok s' → next_player s' = flip_player (next_player s).
Proof. intros H. apply move_inv in H as (i & j & _ & _ & _ & ->). reflexivity. Qed.

(** A mark put in an empty cell leaves every line that was held as it is. *)
Lemma has_line_set2 p g i j x :
  get2 g i j = EMPTY → has_line p g → has_line p (set2 g i j x).
Proof.
  intros Hc (l & Hl & H). exists l. split; [exact Hl|]. intros q Hq.
  rewrite get2_set2_other; [apply H, Hq|].
  intros E. specialize (H q Hq). destruct q as [i' j']. injection E as -> ->.
  simpl in H. congruence.
Qed.

(** A mark of [q] gives no line to another symbol. *)
Lemma has_line_set2_inv p q g i j :
  p ≠ q → has_line p (set2 g i j (Mark q)) → has_line p g.
Proof.
  intros Hpq (l & Hl & H). exists l. split; [exact Hl|]. intros [i' j'] Hq.
  specialize (H _ Hq). simpl in *.
  destruct (idx_pair_dec (i', j') (i, j)) as [[= -> ->]|Hne].
  - rewrite get2_set2_same in H. congruence.
  - rewrite get2_set2_other in H by exact Hne. exact H.
Qed.

Lemma winner_Sym_iff_line s :
  (∃ p, has_line p (board s)) ↔ ∃ q, winner s = Sym (Mark q).
Proof.
  pose proof (winner_facts s) as W. split.
  - intros (p & Hp). destruct (winner s) as [[|q]| |]; [destruct W | eauto | |];
      destruct W as (_ & H1 & H2); destruct p; contradiction.
  - intros (q & E). rewrite E in W. eauto.
Qed.

(** X4: [move] does not look at [winner]: on a board that already has a
    winner it still accepts every empty cell, and the board it returns has a
    winner too (the lines held stay held), so a finished game stays
    finished. *)
Theorem move_ignores_winner (s : State) (row col : Z) :
  (valid_move s row col = Ok true → ∃ s', move s row col = Ok s')
  ∧ (∀ s' p, winner s = Sym (Mark p) → move s row col = Ok s' →
       has_line p (board s') ∧ ∃ q, winner s' = Sym (Mark q))
  ∧ (winner s = DRAW → ∃ e, move s row col = Raise e).
Proof.
  split; [intros H; apply move_Ok_iff, H|]. split.
  - intros s' p Hw Hm. pose proof (winner_facts s) as W. rewrite Hw in W.
    apply move_inv in Hm as (i & j & _ & _ & Hc & ->). simpl.
    assert (has_line p (set2 (board s) i j (Mark (next_player s)))) as Hl
      by (apply has_line_set2; assumption).
    split; [exact Hl|]. apply winner_Sym_iff_line. simpl. eauto.
  - intros Hw. pose proof (winner_facts s) as W. rewrite Hw in W. destruct W as (Hfull & _).
    destruct (move s row col) as [s'|e] eqn:E; [|eauto].
    apply move_inv in E as (i & j & _ & _ & Hc & _). destruct (Hfull i j Hc).
Qed.

(** X5: for every window with [alpha < beta], [get_value] returns a value
    that is the minimax value when that lies strictly inside the window, is
    at most [alpha] when the minimax value is, and at least [beta] when the
    minimax value is. *)
Theorem get_value_window (s : State) (p : player) (get_min : bool) (alpha beta : ext) :
  ext_lt alpha beta →
  ∃ v, get_value s p get_min alpha beta = Some (Ok v)
       ∧ (ext_lt alpha (minimax p get_min s) → ext_lt (minimax p get_min s) beta →
          v = minimax p get_min s)
       ∧ (ext_le (minimax p get_min s) alpha → ext_le v alpha)
       ∧ (ext_le beta (minimax p get_min s) → ext_le beta v).
Proof.
  intros Hab.
  destruct (get_value_fuel_ok 9 p s get_min alpha beta (length_actions_le s) Hab)
    as (v & E & Hv).
  exists v. split; [exact E | exact Hv].
Qed.

Lemma get_value_window_witness :
  ∃ v, get_value must_block NOUGHT false (Fin 0) (Fin 1) = Some (Ok v)
       ∧ (ext_lt (Fin 0) (minimax NOUGHT false must_block) →
          ext_lt (minimax NOUGHT false must_block) (Fin 1) →
          v = minimax NOUGHT false must_block)
       ∧ (ext_le (minimax NOUGHT false must_block) (Fin 0) → ext_le v (Fin 0))
       ∧ (ext_le (Fin 1) (minimax NOUGHT false must_block) → ext_le (Fin 1) v).
Proof. apply (get_value_window must_block NOUGHT false (Fin 0) (Fin 1)). reflexivity. Defined.

Lemma finite_value_update (gm : bool) best v :
  finite_value v →
  finite_value best ∨ best = (if gm then PInf else NInf) →
  finite_value (if negb gm && ext_ltb best v || gm && ext_ltb v best then v else best).
Proof.
  intros Hv [Hb| ->].
  - destruct (negb gm && ext_ltb best v || gm && ext_ltb v best); assumption.
  - destruct gm; simpl; destruct Hv as [->|[->| ->]]; simpl; unfold finite_value; auto.
Qed.

Lemma get_value_loop_finite rec_call state (gm : bool) acts :
  (∀ a, In a acts →
     In a (actions state)
     ∧ ∀ alpha beta, ∃ v, rec_call (child state a) alpha beta = Some (Ok v)
                          ∧ finite_value v) →
  ∀ alpha beta best,
    finite_value best ∨ (acts ≠ [] ∧ best = (if gm then PInf else NInf)) →
    ∃ v, get_value_loop rec_call state gm acts alpha beta best = Some (Ok v)
         ∧ finite_value v.
Proof.
  induction acts as [|a acts IH]; intros Hrec alpha beta best Hbest.
  - exists best. split; [reflexivity|]. destruct Hbest as [H|[H _]]; [exact H | congruence].
  - destruct (Hrec a) as (Hin & Hcall); [left; reflexivity|].
    destruct (move_action state a Hin) as (Emove & _).
    destruct (Hcall alpha beta) as (v1 & Ecall & Hv1).
    assert (finite_value
              (if negb gm && ext_ltb best v1 || gm && ext_ltb v1 best then v1 else best))
      as Hbest'.
    { apply finite_value_update; [exact Hv1|]. destruct Hbest as [H|[_ H]]; auto. }
    assert (∀ b, In b acts →
              In b (actions state)
              ∧ ∀ alpha beta, ∃ v, rec_call (child state b) alpha beta = Some (Ok v)
                                   ∧ finite_value v) as Hrec'
      by (intros b Hb; apply Hrec; right; exact Hb).
    simpl. rewrite Emove, Ecall. destruct gm; simpl.
    + destruct (ext_leb v1 alpha); [eauto|]. apply IH; [exact Hrec' | left; exact Hbest'].
    + destruct (ext_leb beta v1); [eauto|]. apply IH; [exact Hrec' | left; exact Hbest'].
Qed.

Lemma get_value_fuel_finite n p :
  ∀ s gm alpha beta,
    (length (actions s) <= n)%nat →
    ∃ v, get_value_fuel (S n) s p gm alpha beta = Some (Ok v) ∧ finite_value v.
Proof.
  induction n as [|n IH]; intros s gm alpha beta Hn.
  - destruct (terminal_value p s) as [v|] eqn:E.
    + exists v. split; [eapply get_value_fuel_terminal, E | eapply terminal_value_finite, E].
    + apply terminal_value_None, winner_FALSE_actions in E.
      destruct (actions s); [congruence | simpl in Hn; lia].
  - destruct (terminal_value p s) as [v|] eqn:E.
    + exists v. split; [eapply get_value_fuel_terminal, E | eapply terminal_value_finite, E].
    + rewrite get_value_fuel_loop by exact E.
      apply get_value_loop_finite.
      * intros a Ha. split; [exact Ha|]. intros a' b'. apply IH.
        destruct (move_action s a Ha) as (_ & _ & Hlen). lia.
      * right. split; [|reflexivity].
        apply terminal_value_None, winner_FALSE_actions in E. exact E.
Qed.

(** X6: whatever window it is given, also one with [beta <= alpha],
    [get_value] returns, raises nothing, and returns -1, 0 or 1: the
    infinities it starts from never come out. *)
Theorem get_value_never_infinite (s : State) (p : player) (get_min : bool)
    (alpha beta : ext) :
  ∃ v, get_value s p get_min alpha beta = Some (Ok v)
       ∧ (v = Fin (-1) ∨ v = Fin 0 ∨ v = Fin 1).
Proof. apply get_value_fuel_finite, length_actions_le. Qed.

Lemma StronglySorted_move_lt_NoDup l : StronglySorted move_lt l → List.NoDup l.
Proof.
  induction 1 as [|a l Hl IH Ha]; constructor; [|exact IH].
  intros Hin. rewrite List.Forall_forall in Ha. specialize (Ha a Hin).
  unfold move_lt in Ha. lia.
Qed.

Lemma actions_NoDup s : List.NoDup (actions s).
Proof. apply StronglySorted_move_lt_NoDup, actions_sorted. Qed.

Lemma NoDup_all_equal {A : Type} (l : list A) a :
  List.NoDup l → In a l → (∀ b, In b l → b = a) → l = [a].
Proof.
  intros Hnd Hin Hall. destruct l as [|x l]; [destruct Hin|].
  assert (x = a) as -> by (apply Hall; left; reflexivity).
  destruct l as [|y l]; [reflexivity|].
  assert (y = a) as -> by (apply Hall; right; left; reflexivity).
  inversion Hnd as [|? ? Hx _]. exfalso. apply Hx. left. reflexivity.
Qed.

Lemma filter_NoDup {A : Type} (f : A → bool) l : List.NoDup l → List.NoDup (List.filter f l).
Proof. apply List.NoDup_filter. Qed.

(** X7: when one legal move is strictly better than every other, [next_move]
    returns it whatever number is drawn. *)
Theorem next_move_single_best (s : State) (a : Z * Z) (draw : nat) :
  In a (actions s) →
  (∀ b, In b (actions s) → b ≠ a → ext_lt (root_value s b) (root_value s a)) →
  next_move s draw = Some (Ok a).
Proof.
  intros Ha Hbest.
  assert (root_value s a = ext_max_list (map (root_value s) (actions s))) as Hmax.
  { assert (actions s ≠ []) as Hne by (intros E; rewrite E in Ha; destruct Ha).
    pose proof (argmax_nonempty (root_value s) (actions s) Hne
                  (fun b _ => root_value_finite s b)) as Hne'.
    destruct (argmax (root_value s) (actions s)) as [|m l] eqn:E; [congruence|].
    assert (In m (argmax (root_value s) (actions s))) as Hm by (rewrite E; left; reflexivity).
    apply In_argmax in Hm as (Hm & Em).
    destruct (decide (m = a)) as [->|Hma]; [exact Em|].
    specialize (Hbest m Hm Hma).
    pose proof (ext_max_list_ge (map (root_value s) (actions s)) (root_value s a)
                  (in_map _ _ _ Ha)) as Hge.
    rewrite <- Em in Hge. exfalso. revert Hbest Hge.
    generalize (root_value s m) (root_value s a). ext_lia. }
  assert (argmax (root_value s) (actions s) = [a]) as E.
  { apply NoDup_all_equal.
    - apply filter_NoDup, actions_NoDup.
    - apply In_argmax. auto.
    - intros b Hb. apply In_argmax in Hb as (Hb & Eb).
      destruct (decide (b = a)) as [->|Hba]; [reflexivity|].
      specialize (Hbest b Hb Hba). rewrite Eb, <- Hmax in Hbest.
      exfalso. revert Hbest. generalize (root_value s a). ext_lia. }
  unfold next_move. rewrite best_actions_shape, E. simpl.
  unfold random_choice. simpl length.
  assert (draw `mod` 2 = 0 ∨ draw `mod` 2 = 1)%nat as [-> | ->]
    by (pose proof (Nat.mod_upper_bound draw 2); lia); reflexivity.
Qed.

Lemma next_move_single_best_witness : next_move must_block 0 = Some (Ok (0, 2)).
Proof.
  apply (next_move_single_best must_block (0, 2) 0).
  - simpl. tauto.
  - intros b Hb Hne. simpl in Hb.
    destruct Hb as [<-|[<-|[<-|[<-|[<-|[<-|[]]]]]]];
      try (exfalso; apply Hne; reflexivity); vm_compute; reflexivity.
Defined.

Lemma move_takes_the_cell_witness :
  valid_move won_board 0 2 = Ok false
  ∧ move won_board 0 2 = Raise ValueError
  ∧ (∀ a, In a (actions won_board) ↔
          In a (actions {| board := V3 (V3 X X EMPTY) (V3 O O EMPTY) (V3 EMPTY EMPTY EMPTY);
                           next_player := CROSS |})
          ∧ a ≠ (0 `mod` 3, 2 `mod` 3))
  ∧ In (0 `mod` 3, 2 `mod` 3)
       (actions {| board := V3 (V3 X X EMPTY) (V3 O O EMPTY) (V3 EMPTY EMPTY EMPTY);
                   next_player := CROSS |})
  ∧ (length (actions won_board) + 1
     = length (actions {| board := V3 (V3 X X EMPTY) (V3 O O EMPTY) (V3 EMPTY EMPTY EMPTY);
                          next_player := CROSS |}))%nat.
Proof.
  apply (move_takes_the_cell
           {| board := V3 (V3 X X EMPTY) (V3 O O EMPTY) (V3 EMPTY EMPTY EMPTY);
              next_player := CROSS |} 0 2 won_board).
  reflexivity.
Defined.

(** * The rendering *)

Lemma chr_of_cell_inj a b : chr_of_cell a = chr_of_cell b → a = b.
Proof. destruct a as [|[]], b as [|[]]; simpl; congruence. Qed.

Lemma chr_of_cell_not_NL c : (10 =? chr_of_cell c)%N = false.
Proof. destruct c as [|[]]; reflexivity. Qed.

Lemma grid_ext (g g' : grid) : (∀ i j, get2 g i j = get2 g' i j) → g = g'.
Proof.
  intros H. destruct g as [[a b c] [d e f] [g h k]], g' as [[a' b' c'] [d' e' f'] [g' h' k']].
  pose proof (H I0 I0). pose proof (H I0 I1). pose proof (H I0 I2).
  pose proof (H I1 I0). pose proof (H I1 I1). pose proof (H I1 I2).
  pose proof (H I2 I0). pose proof (H I2 I1). pose proof (H I2 I2).
  simpl in *. congruence.
Qed.

Lemma str_cell s i j :
  __str__ s !! Z.to_nat (14 + 25 * Z_of_idx i + 4 * Z_of_idx j)
  = Some (chr_of_cell (get2 (board s) i j)).
Proof. destruct s as [[[a b c] [d e f] [g h k]] np], i, j; reflexivity. Qed.

Lemma filter_NL_row (i : idx) (x y z : cell) :
  List.filter (N.eqb NL)
    [digit i; SP; chr_of_cell x; SP; BOX_V; SP; chr_of_cell y; SP; BOX_V; SP;
     chr_of_cell z; NL] = [NL].
Proof. destruct i, x as [|[]], y as [|[]], z as [|[]]; reflexivity. Qed.

Lemma str_pieces (s : State) :
  __str__ s =
  [SP; SP; digit I0; SP; SP; SP; digit I1; SP; SP; SP; digit I2; NL]
  ++ concat (map (fun i =>
       [digit i; SP; chr_of_cell (get2 (board s) i I0); SP; BOX_V; SP;
        chr_of_cell (get2 (board s) i I1); SP; BOX_V; SP;
        chr_of_cell (get2 (board s) i I2); NL]
       ++ (if Z_of_idx i <? 2
           then [SP; BOX_H; BOX_H; BOX_H; BOX_X; BOX_H; BOX_H; BOX_H; BOX_X;
                 BOX_H; BOX_H; BOX_H; NL]
           else [])) range3).
Proof. reflexivity. Qed.

(** X8: the rendering has 74 characters in six lines, whatever the board; the
    cell of row [i] and column [j] is the character at place
    [14 + 25 i + 4 j]; so two states with the same rendering have the same
    board, and the player to move is not shown. *)
Theorem str_shows_the_board (s : State) :
  length (__str__ s) = 74%nat
  ∧ length (List.filter (N.eqb NL) (__str__ s)) = 6%nat
  ∧ (∀ i j, __str__ s !! Z.to_nat (14 + 25 * Z_of_idx i + 4 * Z_of_idx j)
            = Some (chr_of_cell (get2 (board s) i j)))
  ∧ (∀ s', __str__ s = __str__ s' ↔ board s = board s').
Proof.
  split; [destruct s as [[[a b c] [d e f] [g h k]] np]; reflexivity|].
  split.
  { rewrite str_pieces. unfold range3, map, concat.
    rewrite !List.filter_app, !filter_NL_row, !length_app. reflexivity. }
  split; [apply str_cell|].
  intros s'. split.
  - intros E. apply grid_ext. intros i j. apply chr_of_cell_inj.
    pose proof (str_cell s i j) as H1. pose proof (str_cell s' i j) as H2.
    rewrite E in H1. congruence.
  - intros E. unfold __str__. rewrite E. reflexivity.
Qed.

(** * The agents and the driver *)

Lemma ext_min_list_le l v : In v l → ext_le (ext_min_list l) v.
Proof.
  induction l as [|w l IH]; [intros []|].
  change (ext_min_list (w :: l)) with (ext_min w (ext_min_list l)).
  intros [->|H].
  - ext_lia.
  - specialize (IH H). revert IH. generalize (ext_min_list l). ext_lia.
Qed.

Lemma move_successor s row col s' : move s row col = Ok s' → In s' (successors s).
Proof.
  intros H. apply move_inv in H as (i & j & _ & _ & Hc & ->).
  rewrite successors_children. apply in_map_iff.
  exists (Z_of_idx i, Z_of_idx j). split.
  - unfold child. simpl. rewrite move_idx, Hc. reflexivity.
  - apply In_actions. eauto.
Qed.

Lemma verdict_eqb_eq a b : verdict_eqb a b = true ↔ a = b.
Proof.
  destruct a as [[|[]]| |], b as [[|[]]| |]; simpl; split; congruence.
Qed.

Lemma winner_after_move s row col s' :
  winner s = FALSE → move s row col = Ok s' →
  winner s' = Sym (Mark (next_player s)) ∨ winner s' = DRAW ∨ winner s' = FALSE.
Proof.
  intros Hw H. apply move_inv in H as (i & j & _ & _ & Hc & ->).
  pose proof (winner_facts s) as F. rewrite Hw in F. destruct F as (_ & F1 & F2).
  match goal with |- context [winner ?t] => pose proof (winner_facts t) as G;
    destruct (winner t) as [[|q]| |] end; simpl in G; [destruct G| |tauto|tauto].
  left. destruct (player_eqb q (next_player s)) eqn:Hq.
  - destruct q, (next_player s); simpl in Hq; congruence.
  - exfalso. apply has_line_set2_inv in G; [destruct q; tauto|].
    intros ->. rewrite player_eqb_refl in Hq. discriminate.
Qed.

Lemma run_game_loop_rule (P P1 : State → Prop) (E : exn → Prop) (p1 p2 : Agent) :
  agent_spec p1 (fun s => P s ∧ next_player s = CROSS) P1 E →
  agent_spec p2 (fun s => P1 s ∧ next_player s = NOUGHT) P E →
  ∀ fuel s w, P s → next_player s = CROSS → winner s = FALSE →
    match (run_game_loop fuel p1 p2 s w).1 return Prop with
    | Some (Ok (e, sf)) => announced P P1 e sf
    | Some (Raise x) => E x
    | None => True
    end.
Proof.
  intros H1 H2. induction fuel as [|fuel IH]; intros s w HP Hn Hw; [exact I|].
  simpl. rewrite Hw. simpl.
  specialize (H1 s w (conj HP Hn) Hw).
  destruct (p1 s w) as [[[mv|x]|] w1]; simpl in *; [|exact H1|exact I].
  destruct (move s mv.1 mv.2) as [s1|x] eqn:Em; simpl; [|exact H1].
  pose proof (winner_after_move _ _ _ _ Hw Em) as W1. rewrite Hn in W1.
  pose proof (move_next_player _ _ _ _ Em) as Hn1. rewrite Hn in Hn1. simpl in Hn1.
  destruct (verdict_eqb (winner s1) (Sym (Mark CROSS))) eqn:V1.
  { apply verdict_eqb_eq in V1. simpl. auto. }
  destruct (verdict_eqb (winner s1) DRAW) eqn:V2.
  { apply verdict_eqb_eq in V2. simpl. auto. }
  assert (winner s1 = FALSE) as Hw1.
  { destruct W1 as [W|[W|W]]; [rewrite W in V1|rewrite W in V2|exact W]; discriminate. }
  specialize (H2 s1 w1 (conj H1 Hn1) Hw1).
  destruct (p2 s1 w1) as [[[mv2|x]|] w2]; simpl in *; [|exact H2|exact I].
  destruct (move s1 mv2.1 mv2.2) as [s2|x] eqn:Em2; simpl; [|exact H2].
  pose proof (winner_after_move _ _ _ _ Hw1 Em2) as W2. rewrite Hn1 in W2.
  pose proof (move_next_player _ _ _ _ Em2) as Hn2. rewrite Hn1 in Hn2. simpl in Hn2.
  destruct (verdict_eqb (winner s2) (Sym (Mark NOUGHT))) eqn:V3.
  { apply verdict_eqb_eq in V3. simpl. auto. }
  destruct (verdict_eqb (winner s2) DRAW) eqn:V4.
  { apply verdict_eqb_eq in V4. simpl. auto. }
  apply IH; [exact H2|exact Hn2|].
  destruct W2 as [W|[W|W]]; [rewrite W in V3|rewrite W in V4|exact W]; discriminate.
Qed.

Lemma winner_init : winner init = FALSE.
Proof. reflexivity. Qed.

Lemma run_game_rule (P P1 : State → Prop) (E : exn → Prop) (p1 p2 : Agent) w :
  agent_spec p1 (fun s => P s ∧ next_player s = CROSS) P1 E →
  agent_spec p2 (fun s => P1 s ∧ next_player s = NOUGHT) P E →
  P init →
  match (run_game p1 p2 w).1 return Prop with
  | Some (Ok (e, sf)) => announced P P1 e sf
  | Some (Raise x) => E x
  | None => True
  end.
Proof.
  intros H1 H2 HP. apply run_game_loop_rule; auto.
Qed.

Lemma move_length_actions t r c t' :
  move t r c = Ok t' → (length (actions t') + 1 = length (actions t))%nat.
Proof.
  intros H. apply move_inv in H as (i & j & _ & _ & Hc & ->).
  assert (In (Z_of_idx i, Z_of_idx j) (actions t)) as Ha by (apply In_actions; eauto).
  destruct (move_action t _ Ha) as (Hm & _ & Hlen).
  unfold child in Hlen. simpl in Hlen. rewrite move_idx, Hc in Hlen. exact Hlen.
Qed.

(** More rounds than the cells allow change nothing. *)
Lemma run_game_loop_fuel p1 p2 n :
  ∀ fuel s w, (length (actions s) < 2 * fuel)%nat →
    run_game_loop (fuel + n) p1 p2 s w = run_game_loop fuel p1 p2 s w.
Proof.
  induction fuel as [|fuel IH]; intros s w Hl; [lia|].
  simpl. destruct (truthy (winner s)); [reflexivity|].
  destruct (p1 s w) as [[[mv|x]|] w1]; try reflexivity.
  destruct (move s mv.1 mv.2) as [s1|x] eqn:Em; [|reflexivity].
  destruct (verdict_eqb (winner s1) (Sym (Mark CROSS))); [reflexivity|].
  destruct (verdict_eqb (winner s1) DRAW); [reflexivity|].
  destruct (p2 s1 w1) as [[[mv2|x]|] w2]; try reflexivity.
  destruct (move s1 mv2.1 mv2.2) as [s2|x] eqn:Em2; [|reflexivity].
  destruct (verdict_eqb (winner s2) (Sym (Mark NOUGHT))); [reflexivity|].
  destruct (verdict_eqb (winner s2) DRAW); [reflexivity|].
  apply IH.
  pose proof (move_length_actions _ _ _ _ Em).
  pose proof (move_length_actions _ _ _ _ Em2). lia.
Qed.

Lemma run_game_loop_answers p1 p2 :
  answers p1 → answers p2 →
  ∀ fuel s w, (length (actions s) < 2 * fuel)%nat →
    ∃ r, (run_game_loop fuel p1 p2 s w).1 = Some r.
Proof.
  intros A1 A2. induction fuel as [|fuel IH]; intros s w Hl; [lia|].
  simpl. destruct (truthy (winner s)); [eauto|].
  destruct (A1 s w) as [r1 Hr1].
  destruct (p1 s w) as [a1 w1]; simpl in Hr1; subst a1.
  destruct r1 as [mv|x]; [|eauto].
  destruct (move s mv.1 mv.2) as [s1|x] eqn:Em; [|eauto].
  destruct (verdict_eqb (winner s1) (Sym (Mark CROSS))); [eauto|].
  destruct (verdict_eqb (winner s1) DRAW); [eauto|].
  destruct (A2 s1 w1) as [r2 Hr2].
  destruct (p2 s1 w1) as [a2 w2]; simpl in Hr2; subst a2.
  destruct r2 as [mv2|x]; [|eauto].
  destruct (move s1 mv2.1 mv2.2) as [s2|x] eqn:Em2; [|eauto].
  destruct (verdict_eqb (winner s2) (Sym (Mark NOUGHT))); [eauto|].
  destruct (verdict_eqb (winner s2) DRAW); [eauto|].
  apply IH.
  pose proof (move_length_actions _ _ _ _ Em).
  pose proof (move_length_actions _ _ _ _ Em2). lia.
Qed.

Lemma run_game_answers p1 p2 w :
  answers p1 → answers p2 → ∃ r, (run_game p1 p2 w).1 = Some r.
Proof.
  intros A1 A2. unfold run_game. apply run_game_loop_answers; [exact A1|exact A2|].
  simpl. lia.
Qed.

Lemma ABMinimaxAgent_next_move s w :
  (ABMinimaxAgent s w).1 = next_move s (rng w (drawn w)).
Proof.
  unfold ABMinimaxAgent, next_move.
  destruct (best_actions s) as [[[|a l]|e]|]; reflexivity.
Qed.

Lemma ABMinimaxAgent_answers : answers ABMinimaxAgent.
Proof.
  intros s w. rewrite ABMinimaxAgent_next_move. unfold next_move.
  rewrite best_actions_shape. eauto.
Qed.

(** The value of the game for [p] does not fall when the opponent moves. *)
Lemma game_value_opponent p s row col s' :
  winner s = FALSE → next_player s = flip_player p → move s row col = Ok s' →
  ext_le (game_value p s) (game_value p s').
Proof.
  intros Hw Hn Hm. rewrite (game_value_unfold p s).
  apply (terminal_value_None p) in Hw. rewrite Hw. cbv zeta.
  rewrite Hn. replace (player_eqb (flip_player p) p) with false by (destruct p; reflexivity).
  apply ext_min_list_le, in_map, (move_successor _ _ _ _ Hm).
Qed.

(** A best move keeps the value of the game for the player who moves. *)
Lemma game_value_best s a :
  winner s = FALSE → In a (argmax (root_value s) (actions s)) →
  move s a.1 a.2 = Ok (child s a)
  ∧ game_value (next_player s) (child s a) = game_value (next_player s) s.
Proof.
  intros Hw Ha. apply In_argmax in Ha as [Ha Hv].
  split; [apply move_action, Ha|].
  rewrite (game_value_unfold (next_player s) s).
  apply (terminal_value_None (next_player s)) in Hw. rewrite Hw. cbv zeta.
  rewrite player_eqb_refl, successors_children, map_map. exact Hv.
Qed.

Lemma game_value_lost p s :
  winner s = Sym (Mark (flip_player p)) → game_value p s = Fin (-1).
Proof.
  intros Hw. rewrite game_value_unfold. unfold terminal_value. rewrite Hw.
  destruct p; reflexivity.
Qed.

Lemma game_value_init p : game_value p init = Fin 0.
Proof.
  rewrite <- minimax_game_value.
  assert (Some (Ok (minimax p (negb (player_eqb (next_player init) p)) init))
          = Some (Ok (Fin 0))) as H; [|congruence].
  rewrite <- get_value_exact. destruct p; vm_compute; reflexivity.
Qed.

(** The agent asked at a board where the game is on answers a move that
    [move] accepts and that keeps the value of the game for the player to
    move. *)
Lemma ABMinimaxAgent_spec s w :
  winner s = FALSE →
  ∃ mv s', (ABMinimaxAgent s w).1 = Some (Ok mv) ∧ move s mv.1 mv.2 = Ok s'
           ∧ game_value (next_player s) s' = game_value (next_player s) s.
Proof.
  intros Hw. rewrite ABMinimaxAgent_next_move.
  destruct (next_move_In s (rng w (drawn w)) (winner_FALSE_actions s Hw)) as (m & Hm & Hin).
  destruct (game_value_best s m Hw Hin) as [H1 H2]. eauto.
Qed.

Lemma ext_le_trans a b c : ext_le a b → ext_le b c → ext_le a c.
Proof. ext_lia. Qed.

Lemma reachable_agent_spec (p : Agent) (me : player) :
  agent_spec p (fun s => reachable s ∧ next_player s = me)
    (fun s => reachable s ∧ next_player s = flip_player me) (fun _ => True).
Proof.
  intros s w [Hr Hn] Hw.
  destruct (p s w).1 as [[mv|x]|]; [|exact I|exact I].
  destruct (move s mv.1 mv.2) as [s'|x] eqn:Em; [|exact I].
  split; [eapply reach_move; eauto|].
  rewrite (move_next_player _ _ _ _ Em), Hn. reflexivity.
Qed.

Lemma run_game_announces_winner_aux (player1 player2 : Agent) (w : world) :
  match (run_game player1 player2 w).1 return Prop with
  | Some (Ok (e, s)) =>
    announced (fun s => reachable s ∧ next_player s = CROSS)
              (fun s => reachable s ∧ next_player s = NOUGHT) e s
  | _ => True
  end.
Proof.
  pose proof (run_game_rule
    (fun s => reachable s ∧ next_player s = CROSS)
    (fun s => reachable s ∧ next_player s = NOUGHT)
    (fun _ => True) player1 player2 w) as H.
  destruct (run_game player1 player2 w).1 as [[[e s]|x]|]; try exact I.
  apply H.
  - intros t w' [[Ht Hn] _] Hwt.
    exact (reachable_agent_spec player1 CROSS t w' (conj Ht Hn) Hwt).
  - intros t w' [[Ht Hn] _] Hwt.
    exact (reachable_agent_spec player2 NOUGHT t w' (conj Ht Hn) Hwt).
  - split; [constructor | reflexivity].
Qed.

(** X9: whatever the two agents do, a game that [run_game] ends with a
    message ends on a board reached from the empty one by legal moves, and
    the message is what [winner] says of that board: player one wins on a
    line of crosses with noughts to move, player two on a line of noughts
    with crosses to move, a draw on a board [winner] calls a draw.  The loop
    never ends without a message. *)
Theorem run_game_announces_winner (player1 player2 : Agent) (w : world) :
  match (run_game player1 player2 w).1 return Prop with
  | Some (Ok (e, s)) =>
    reachable s
    ∧ match e with
      | PlayerOneWins => winner s = Sym (Mark CROSS) ∧ next_player s = NOUGHT
      | PlayerTwoWins => winner s = Sym (Mark NOUGHT) ∧ next_player s = CROSS
      | ItsADraw => winner s = DRAW
      | NoMessage => False
      end
  | _ => True
  end.
Proof.
  pose proof (run_game_announces_winner_aux player1 player2 w) as H.
  destruct (run_game player1 player2 w).1 as [[[e s]|x]|]; try exact I.
  destruct e; simpl in H; tauto.
Qed.

Lemma not_losing_opponent q s row col s' :
  winner s = FALSE → next_player s = flip_player q → move s row col = Ok s' →
  not_losing q s → not_losing q s'.
Proof.
  intros Hw Hn Hm H. eapply ext_le_trans; [exact H|].
  eapply game_value_opponent; eauto.
Qed.

Lemma not_losing_ABMinimaxAgent q s w :
  winner s = FALSE → not_losing q s →
  ∃ mv s', (ABMinimaxAgent s w).1 = Some (Ok mv) ∧ move s mv.1 mv.2 = Ok s'
           ∧ not_losing q s'.
Proof.
  intros Hw H. destruct (ABMinimaxAgent_spec s w Hw) as (mv & s' & Ea & Em & Hv).
  exists mv, s'. split; [exact Ea|]. split; [exact Em|].
  destruct (player_eqb q (next_player s)) eqn:Hq.
  - assert (next_player s = q) as <-.
    { destruct (next_player s), q; simpl in Hq; congruence. }
    unfold not_losing. rewrite Hv. exact H.
  - eapply not_losing_opponent; eauto.
    destruct (next_player s), q; simpl in Hq; simpl; congruence.
Qed.

Lemma not_losing_init p : not_losing p init.
Proof. unfold not_losing. rewrite game_value_init. ext_lia. Qed.

Lemma not_losing_lost p s : not_losing p s → winner s = Sym (Mark (flip_player p)) → False.
Proof.
  intros H Hw. unfold not_losing in H. rewrite (game_value_lost _ _ Hw) in H.
  revert H. ext_lia.
Qed.

Lemma ABMinimaxAgent_agent_spec q me E :
  agent_spec ABMinimaxAgent (fun s => not_losing q s ∧ next_player s = me)
    (not_losing q) E.
Proof.
  intros s w [H _] Hw.
  destruct (not_losing_ABMinimaxAgent q s w Hw H) as (mv & s' & -> & -> & H'). exact H'.
Qed.

Lemma opponent_agent_spec (p : Agent) q :
  agent_spec p (fun s => not_losing q s ∧ next_player s = flip_player q)
    (not_losing q) (fun _ => True).
Proof.
  intros s w [H Hn] Hw.
  destruct (p s w).1 as [[mv|x]|]; [|exact I|exact I].
  destruct (move s mv.1 mv.2) as [s'|x] eqn:Em; [|exact I].
  eapply not_losing_opponent; eauto.
Qed.

(** X10: the agent never loses as player two, whoever plays first and
    whatever is drawn: a game that ends with a message ends with
    "Player two wins!" on a line of noughts or with "It's a draw.". *)
Theorem ai_second_never_loses (player1 : Agent) (w : world) :
  match (run_game player1 ABMinimaxAgent w).1 return Prop with
  | Some (Ok (e, s)) =>
    (e = PlayerTwoWins ∧ winner s = Sym (Mark NOUGHT))
    ∨ (e = ItsADraw ∧ winner s = DRAW)
  | _ => True
  end.
Proof.
  pose proof (run_game_rule (not_losing NOUGHT) (not_losing NOUGHT) (fun _ => True)
                player1 ABMinimaxAgent w
                (opponent_agent_spec player1 NOUGHT)
                (ABMinimaxAgent_agent_spec NOUGHT NOUGHT _)
                (not_losing_init NOUGHT)) as H.
  destruct (run_game player1 ABMinimaxAgent w).1 as [[[e s]|x]|]; try exact I.
  destruct e; simpl in H.
  - destruct H as [H Hw]. destruct (not_losing_lost NOUGHT s H Hw).
  - left. tauto.
  - right. tauto.
  - destruct H.
Qed.

(** X11: the agent never loses as player one either: a game that ends with
    a message ends with "Player one wins!" on a line of crosses or with
    "It's a draw.". *)
Theorem ai_first_never_loses (player2 : Agent) (w : world) :
  match (run_game ABMinimaxAgent player2 w).1 return Prop with
  | Some (Ok (e, s)) =>
    (e = PlayerOneWins ∧ winner s = Sym (Mark CROSS))
    ∨ (e = ItsADraw ∧ winner s = DRAW)
  | _ => True
  end.
Proof.
  pose proof (run_game_rule (not_losing CROSS) (not_losing CROSS) (fun _ => True)
                ABMinimaxAgent player2 w
                (ABMinimaxAgent_agent_spec CROSS CROSS _)
                (opponent_agent_spec player2 CROSS)
                (not_losing_init CROSS)) as H.
  destruct (run_game ABMinimaxAgent player2 w).1 as [[[e s]|x]|]; try exact I.
  destruct e; simpl in H.
  - left. tauto.
  - destruct H as [H Hw]. destruct (not_losing_lost CROSS s H Hw).
  - right. tauto.
  - destruct H.
Qed.

Lemma ABMinimaxAgent_both_spec me E :
  agent_spec ABMinimaxAgent
    (fun s => (not_losing CROSS s ∧ not_losing NOUGHT s) ∧ next_player s = me)
    (fun s => not_losing CROSS s ∧ not_losing NOUGHT s) E.
Proof.
  intros s w [[H1 H2] Hn] Hw.
  pose proof (ABMinimaxAgent_agent_spec CROSS me E s w (conj H1 Hn) Hw) as G1.
  pose proof (ABMinimaxAgent_agent_spec NOUGHT me E s w (conj H2 Hn) Hw) as G2.
  destruct (ABMinimaxAgent s w).1 as [[mv|x]|]; try exact G1.
  destruct (move s mv.1 mv.2) as [s'|x]; [split|]; assumption.
Qed.

(** X12: the agent against itself: whatever is drawn, the game ends, without
    an exception, with "It's a draw." on a full board without a line. *)
Theorem ai_against_itself_draws (w : world) :
  ∃ s, (run_game ABMinimaxAgent ABMinimaxAgent w).1 = Some (Ok (ItsADraw, s))
       ∧ winner s = DRAW ∧ full (board s) ∧ reachable s.
Proof.
  destruct (run_game_answers ABMinimaxAgent ABMinimaxAgent w
              ABMinimaxAgent_answers ABMinimaxAgent_answers) as [r Hr].
  pose proof (run_game_rule
    (fun s => not_losing CROSS s ∧ not_losing NOUGHT s)
    (fun s => not_losing CROSS s ∧ not_losing NOUGHT s) (fun _ => False)
    ABMinimaxAgent ABMinimaxAgent w
    (ABMinimaxAgent_both_spec CROSS _) (ABMinimaxAgent_both_spec NOUGHT _)
    (conj (not_losing_init CROSS) (not_losing_init NOUGHT))) as H.
  pose proof (run_game_announces_winner_aux ABMinimaxAgent ABMinimaxAgent w) as R.
  rewrite Hr in H, R. destruct r as [[e s]|x]; [|destruct H].
  destruct e; simpl in H.
  - destruct H as [[_ H] Hw]. destruct (not_losing_lost NOUGHT s H Hw).
  - destruct H as [[H _] Hw]. destruct (not_losing_lost CROSS s H Hw).
  - exists s. destruct H as [_ Hw]. split; [exact Hr|]. split; [exact Hw|].
    pose proof (winner_facts s) as F. rewrite Hw in F. simpl in R. tauto.
  - destruct H.
Qed.

(** X13: five rounds are all the loop of [run_game] can run: with more
    rounds allowed the result is the same, whatever the agents do. *)
Theorem run_game_five_rounds (player1 player2 : Agent) (w : world) (n : nat) :
  run_game_loop (5 + n) player1 player2 init w = run_game player1 player2 w.
Proof.
  unfold run_game. apply run_game_loop_fuel. simpl. lia.
Qed.

(** X14: when both agents answer or raise whenever they are asked,
    [run_game] ends: with a message or with an exception. *)
Theorem run_game_ends (player1 player2 : Agent) (w : world) :
  answers player1 → answers player2 →
  ∃ r, (run_game player1 player2 w).1 = Some r.
Proof.
  apply run_game_answers.
Qed.

(** * The human agent *)


Lemma split_no_sep sep s : sep ∉ s → split sep s = [s].
Proof.
  induction s as [|c s IH]; [reflexivity|].
  intros H. apply not_elem_of_cons in H as [H1 H2]. simpl.
  destruct (N.eqb_spec c sep) as [->|_]; [congruence|].
  rewrite (IH H2). reflexivity.
Qed.

Section Human.

Variable strip : str → str.
Variable int : str → option Z.





(** X16: a line that holds one number and no comma, or two numbers of which
    one is outside [-3, 2], is not asked for again: an exception leaves
    [HumanAgent.next_move], whatever the board.  It is [IndexError], or
    [OverflowError] exactly when the line holds two numbers of which the row
    is from 2^63 to 2^64 - 1, or the row fits 64 bits signed and the column
    is from 2^63 to 2^64 - 1. *)
Theorem HumanAgent_index_error (s : State) (line : str) (events : list event) :
  ((COMMA ∉ strip line) ∧ ∃ n, int (strip line) = Some n)
  ∨ (∃ m0 m1 more row col,
       split COMMA (strip line) = m0 :: m1 :: more
       ∧ int m0 = Some row ∧ int m1 = Some col
       ∧ ¬ (-3 <= row < 3 ∧ -3 <= col < 3)) →
  ∃ e,
    HumanAgent_loop strip int s (Line line :: events) = (Raise e, events)
    ∧ (e = IndexError ∨ e = OverflowError)
    ∧ (e = OverflowError ↔
       ∃ m0 m1 more row col,
         split COMMA (strip line) = m0 :: m1 :: more
         ∧ int m0 = Some row ∧ int m1 = Some col
         ∧ (2 ^ 63 <= row < 2 ^ 64
            ∨ (- 2 ^ 63 <= row < 2 ^ 63 ∧ 2 ^ 63 <= col < 2 ^ 64))).
Proof.
  intros [[Hc [n Hn]]|(m0 & m1 & more & row & col & Hs & H0 & H1 & Hr)]; simpl.
  - exists IndexError. rewrite (split_no_sep _ _ Hc). simpl. rewrite Hn.
    split; [reflexivity|]. split; [left; reflexivity|].
    split; [discriminate|]. intros (m0 & m1 & more & _ & _ & [=] & _).
  - exists (index_exn row col). rewrite Hs. simpl.
    rewrite H0, H1, (valid_move_out_of_range s row col Hr).
    destruct (index_exn_cases row col) as [Hc Ho].
    split; [destruct Hc as [-> | ->]; reflexivity|]. split; [exact Hc|].
    rewrite Ho. split.
    + intros H. exists m0, m1, more, row, col. auto.
    + intros (m0' & m1' & more' & row' & col' & [= <- <- <-] & H0' & H1' & H).
      rewrite H0 in H0'. rewrite H1 in H1'.
      injection H0' as <-. injection H1' as <-. exact H.
Qed.

(** X17: the first line that is ['y'] or ['n'] once stripped decides
    [yes_no_input]; the lines before it are read and passed over. *)
Theorem yes_no_input_first_answer (events : list event) (b : bool)
    (rest : list event) :
  yes_no_input strip events = (Ok b, rest) ↔
  ∃ before line,
    events = map Line before ++ Line line :: rest
    ∧ Forall (fun l => strip l ≠ [121%N] ∧ strip l ≠ [110%N]) before
    ∧ strip line = (if b then [121%N] else [110%N]).
Proof.
  revert b rest. induction events as [|ev events IH]; intros b rest; simpl.
  - split; [discriminate|]. intros (before & line & H & _). destruct before; discriminate.
  - destruct ev as [l|].
    2: { split; [discriminate|]. intros (before & line & H & _).
         destruct before; discriminate. }
    destruct (bool_decide (strip l ∈ [[121%N]; [110%N]])) eqn:Hd.
    + apply bool_decide_eq_true in Hd.
      assert (strip l = [121%N] ∨ strip l = [110%N]) as Hl.
      { apply elem_of_cons in Hd as [Hd|Hd]; [auto|].
        apply elem_of_cons in Hd as [Hd|Hd]; [auto|]. inversion Hd. }
      split.
      * intros [= <- <-]. exists [], l. split; [reflexivity|]. split; [constructor|].
        destruct Hl as [Hl|Hl]; rewrite Hl; reflexivity.
      * intros (before & line & H & Hb & Hline).
        destruct before as [|l0 before]; simpl in H.
        -- injection H as -> ->. f_equal. f_equal.
           destruct b; rewrite Hline; reflexivity.
        -- injection H as -> ->. inversion Hb as [|? ? [H1 H2] ?]; subst.
           destruct Hl; contradiction.
    + apply bool_decide_eq_false in Hd.
      assert (strip l ≠ [121%N] ∧ strip l ≠ [110%N]) as Hl.
      { split; intros E; apply Hd; rewrite E; [left|right; left]. }
      rewrite IH. split.
      * intros (before & line & -> & Hb & Hline).
        exists (l :: before), line. split; [reflexivity|].
        split; [constructor; assumption|exact Hline].
      * intros (before & line & H & Hb & Hline).
        destruct before as [|l0 before]; simpl in H.
        -- injection H as -> ->. destruct b; tauto.
        -- injection H as -> ->. inversion Hb; subst. eauto.
Qed.




End Human.

Lemma run_game_ends_witness :
  ∃ r, (run_game ABMinimaxAgent ABMinimaxAgent (typing [])).1 = Some r.
Proof.
  apply (run_game_ends ABMinimaxAgent ABMinimaxAgent (typing []));
    exact ABMinimaxAgent_answers.
Defined.

(** The lines ["1"] and ["9223372036854775808,0"] on the empty board. *)
Lemma HumanAgent_index_error_witness :
  (∃ e,
     HumanAgent_loop ascii_strip ascii_int init [Line [49%N]] = (Raise e, [])
     ∧ (e = IndexError ∨ e = OverflowError)
     ∧ (e = OverflowError ↔
        ∃ m0 m1 more row col,
          split COMMA (ascii_strip [49%N]) = m0 :: m1 :: more
          ∧ ascii_int m0 = Some row ∧ ascii_int m1 = Some col
          ∧ (2 ^ 63 <= row < 2 ^ 64
             ∨ (- 2 ^ 63 <= row < 2 ^ 63 ∧ 2 ^ 63 <= col < 2 ^ 64))))
  ∧ (∃ e,
       HumanAgent_loop ascii_strip ascii_int init [Line overflow_line] = (Raise e, [])
       ∧ (e = IndexError ∨ e = OverflowError)
       ∧ (e = OverflowError ↔
          ∃ m0 m1 more row col,
            split COMMA (ascii_strip overflow_line) = m0 :: m1 :: more
            ∧ ascii_int m0 = Some row ∧ ascii_int m1 = Some col
            ∧ (2 ^ 63 <= row < 2 ^ 64
               ∨ (- 2 ^ 63 <= row < 2 ^ 63 ∧ 2 ^ 63 <= col < 2 ^ 64)))).
Proof.
  split.
  - apply (HumanAgent_index_error ascii_strip ascii_int init [49%N] []).
    left. split.
    + apply (bool_decide_unpack _). vm_compute. exact I.
    + exists 1. reflexivity.
  - apply (HumanAgent_index_error ascii_strip ascii_int init overflow_line []).
    right. eexists _, _, _, (2 ^ 63), 0.
    split; [vm_compute; reflexivity|]. split; [vm_compute; reflexivity|].
    split; [vm_compute; reflexivity|]. lia.
Defined.

(** What the two lines raise. *)
Lemma HumanAgent_index_error_examples :
  HumanAgent_loop ascii_strip ascii_int init [Line [49%N]] = (Raise IndexError, [])
  ∧ HumanAgent_loop ascii_strip ascii_int init [Line overflow_line]
    = (Raise OverflowError, [])
  ∧ HumanAgent_loop ascii_strip ascii_int init [] = (Raise EOFError, [])
  ∧ HumanAgent_loop ascii_strip ascii_int init [CtrlC] = (Raise KeyboardInterrupt, []).
Proof. vm_compute. repeat split; reflexivity. Qed.

(** Crosses typed by one human and noughts by another: the script ends with
    "Player one wins!" on a row of crosses. *)
Lemma humans_example :
  (run_game (HumanAgent ascii_strip ascii_int) (HumanAgent ascii_strip ascii_int)
     (typing cross_wins_script)).1
  = Some (Ok (PlayerOneWins,
              {| board := V3 (V3 X X X) (V3 O O EMPTY) (V3 EMPTY EMPTY EMPTY);
                 next_player := NOUGHT |})).
Proof. vm_compute. reflexivity. Qed.

Lemma ascii_int_examples :
  ascii_int [32; 45; 49; 50; 10]%N = Some (-12)
  ∧ ascii_int [49; 95; 48]%N = Some 10
  ∧ ascii_int [49; 95; 95; 48]%N = None
  ∧ ascii_int [49; 32; 48]%N = None
  ∧ ascii_int [43]%N = None
  ∧ ascii_int []%N = None
  ∧ ascii_int [48; 48; 55]%N = Some 7
  ∧ ascii_int [28; 49]%N = None
  ∧ ascii_strip [28; 49]%N = [49%N].
Proof. vm_compute. repeat split; reflexivity. Qed.

(** * The session *)




Section SessionProofs.

Variable strip : str → str.
Variable int : str → option Z.





End SessionProofs.
